(** * The OSX processor resolver of facter

    A shallow embedding of
    [facter::facts::osx::processor_resolver::resolve_structured_processors]
    (lib/src/facts/osx/processor_resolver.cc) and the properties of it that
    the specification states.

    The routine talks to the kernel through [sysctlbyname] three times and
    stores what it learns in the fact collection.  The machine is a
    parameter of the model: a record of the replies of the kernel and of
    the memory it has for the character buffer.  The fact collection is a
    finite map; the calls made to the kernel are recorded in the order they
    are made.

    The character buffer is the one object of the routine whose size the
    code does not bound, so its memory is modelled: a vector is the memory
    it owns together with its size, and growing it can fail.  The other
    allocations of the routine (the fact values, the first 256 characters
    of the buffer, the string read from it and its copies) are taken to
    succeed.  Debug logging is left out: it does not change the collection
    and no property below is about it. *)

From Stdlib Require Import ZArith NArith Ascii String.
From stdpp Require Import gmap strings list.

Local Open Scope Z_scope.
Local Set Warnings "-register-all".

(** ** Fact values *)

(** Modelled from the spec: the value classes of facter/facts/*.hpp are not
    part of the source at hand.  [integer_value] wraps an integer,
    [string_value] a string, [array_value] an ordered sequence of values and
    [map_value] a key-ordered mapping from names to values. *)
Inductive value :=
| integer_value (i : Z)
| string_value (s : string)
| array_value (elements : list value)
| map_value (elements : gmap string value).

(** The fields of a [map_value], and the caller's fact collection. *)
Abbreviation fields := (gmap string value).
Abbreviation collection := (gmap string value).

(** Modelled from the spec: [array_value::add] appends at the end. *)
Definition array_add (v : value) (elements : list value) : list value :=
  elements ++ [v].

(** Modelled from the spec: [map_value::add] stores the value under the name. *)
Definition map_add (name : string) (v : value) (elements : fields) : fields :=
  <[name := v]> elements.

(** Modelled from the spec: [map_value::empty]. *)
Definition map_is_empty (elements : fields) : bool :=
  Nat.eqb (size elements) 0.

(** Modelled from the spec: [collection::add] registers the fact under its
    name in the caller's collection; the collection holds one fact per
    name, so a fact already registered under the name gives way. *)
Definition collection_add (name : string) (v : value) (facts : collection)
  : collection :=
  <[name := v]> facts.

(** Modelled from the spec: the name [fact::processors] of
    facter/facts/fact.hpp, the fixed key of the record. *)
Definition fact_processors : string := "processors".

(** ** Machine integers and the character buffer *)

(** [size_t] is 64 bits wide on the platform; arithmetic on it wraps. *)
Definition size_t (n : N) : N := (n mod 2 ^ 64)%N.

(** [std::vector<char>::max_size()] of the platform's standard library:
    the largest [ptrdiff_t]. *)
Definition vector_max_size : N := (2 ^ 63 - 1)%N.

(** The exceptions of [vector::resize]: [std::length_error] when it is
    asked for more than [max_size()] elements, [std::bad_alloc] when the
    memory for the elements cannot be had. *)
Inductive exn := length_error | bad_alloc.

Definition NUL : ascii := Ascii.zero.

(** A [std::vector<char>]: the characters in the memory it owns, of which
    the first [vlen] are its elements.  [data()] points at the first
    character of the memory.  Memory the library reserved and never wrote
    is not part of [storage]. *)
Record vector := {
  storage : list ascii;
  vlen : nat
}.

(** [buffer.size()] *)
Definition vsize (buffer : vector) : N := N.of_nat (vlen buffer).

(** [buffer.resize(n)], on a machine where [memory m] tells whether the
    memory for a vector of [m] characters can be had.  Beyond [max_size()]
    it throws.  A vector that shrinks gives up elements, not memory: the
    characters cut off stay where they are.  A vector that grows within its
    memory zeroes the new elements.  A vector that outgrows its memory asks
    for new memory, throws if there is none, and otherwise moves its
    elements there and zeroes the new ones. *)
Definition resize (memory : N -> bool) (n : N) (buffer : vector)
  : exn + vector :=
  if (vector_max_size <? n)%N then inl length_error
  else
    let n' := N.to_nat n in
    if (n' <=? vlen buffer)%nat then
      inr {| storage := storage buffer; vlen := n' |}
    else if (n' <=? length (storage buffer))%nat then
      inr {| storage := take (vlen buffer) (storage buffer)
                          ++ replicate (n' - vlen buffer) NUL
                          ++ drop n' (storage buffer);
             vlen := n' |}
    else if memory n then
      inr {| storage := take (vlen buffer) (storage buffer)
                          ++ replicate (n' - vlen buffer) NUL;
             vlen := n' |}
    else inl bad_alloc.

(** [std::string(p)] for a pointer [p] to the characters [chars]: the
    characters before the first zero.  The constructor does not know where
    the vector ends, it reads on through the memory; that the routine
    always hands it memory with a zero in it is shown below. *)
Fixpoint c_str (chars : list ascii) : string :=
  match chars with
  | [] => EmptyString
  | c :: rest => if Ascii.eqb c NUL then EmptyString else String c (c_str rest)
  end.

(** ** The machine *)

(** What a [sysctlbyname] call on an [int] did: its return code, and the
    integer it stored in the variable, if it stored one.  ([errno] is only
    read by the log line.) *)
Record int_reply := {
  int_rc : Z;
  int_stored : option Z
}.

(** What a [sysctlbyname] call on a character buffer did: its return code,
    [errno] after the call, and the characters the kernel had to copy out. *)
Record string_reply := {
  str_rc : Z;
  str_errno : Z;
  str_data : list ascii
}.

(** The replies of the kernel to the three queries, and the memory of the
    machine.  The brand string query is asked with buffers of growing size,
    so its reply depends on the size it is given.  [memory n] tells whether
    the buffer gets its memory when it has to grow to [n] characters; the
    routine asks for no size twice, so a function of the size covers every
    way the allocator can behave during a run. *)
Record kernel := {
  hw_logicalcpu_max : int_reply;
  hw_physicalcpu_max : int_reply;
  machdep_cpu_brand_string : N -> string_reply;
  memory : N -> bool
}.

Definition ENOMEM : Z := 12.

(** A call of [sysctlbyname]: the name asked for and the length of the
    buffer handed in. *)
Record call := Call {
  call_name : string;
  call_oldlen : N
}.

(** [sizeof(int)] *)
Definition sizeof_int : N := 4%N.

(** The kernel is handed [buffer.data()] and [buffer.size()]: it copies out
    as much as fits into the elements of the vector and sets the length to
    the amount copied. *)
Definition copyout (data : list ascii) (buffer : vector) : vector * N :=
  let copied := take (vlen buffer) data in
  ({| storage := copied ++ drop (length copied) (storage buffer);
      vlen := vlen buffer |},
   N.of_nat (length copied)).

(** [sysctlbyname(name, &var, &size, nullptr, 0)] on an [int] variable:
    the return code and the variable afterwards. *)
Definition sysctl_int (r : int_reply) (var : Z) : Z * Z :=
  (int_rc r, default var (int_stored r)).

(** ** The routine *)

(** How one pass through the body of the [do ... while (true)] loop ends. *)
Inductive iteration :=
| Retry (buffer : vector)
| Break (buffer : vector)
| Return
| Throw (e : exn).

(** Lines 47 to 56. *)
Definition brand_iteration (k : kernel) (buffer : vector) : iteration :=
  let size := vsize buffer in
  let r := machdep_cpu_brand_string k size in
  let '(buffer, size) := copyout (str_data r) buffer in
  if str_rc r =? 0 then
    match resize (memory k) (size_t (size + 1)) buffer with
    | inl e => Throw e
    | inr buffer => Break buffer
    end
  else if negb (str_errno r =? ENOMEM) then Return
  else
    match resize (memory k) (size_t (vsize buffer * 2)) buffer with
    | inl e => Throw e
    | inr buffer => Retry buffer
    end.

(** How the loop ends. *)
Inductive loop_exit :=
| Found (buffer : vector)
| Abandoned
| Failed (e : exn).

(** Lines 46 to 57; [fuel] bounds the number of passes.  The result is the
    list of calls made, one per pass, and the way the loop ended. *)
Fixpoint brand_loop (fuel : nat) (k : kernel) (buffer : vector)
  : option (list call * loop_exit) :=
  match fuel with
  | O => None
  | S fuel =>
      let asked := Call "machdep.cpu.brand_string" (vsize buffer) in
      match brand_iteration k buffer with
      | Retry buffer =>
          match brand_loop fuel k buffer with
          | Some (calls, e) => Some (asked :: calls, e)
          | None => None
          end
      | Break buffer => Some ([asked], Found buffer)
      | Return => Some ([asked], Abandoned)
      | Throw e => Some ([asked], Failed e)
      end
  end.

(** [for (int i = 0; i < logical_count; ++i) processor_list->add(...)] *)
Fixpoint add_models (n : nat) (description : string)
  (processor_list : list value) : list value :=
  match n with
  | O => processor_list
  | S n => add_models n description
             (array_add (string_value description) processor_list)
  end.

(** How a call of the routine ends, and the caller's collection at that
    point: the routine returns, or an exception leaves it. *)
Inductive outcome :=
| Returned (facts : collection)
| Raised (e : exn) (facts : collection).

Definition final (o : outcome) : collection :=
  match o with
  | Returned facts => facts
  | Raised _ facts => facts
  end.

(** Lines 65 to 67: the list of models goes into the record unless it is
    empty. *)
Definition attach_models (processor_list : list value)
  (processors_value : fields) : fields :=
  if (0 <? length processor_list)%nat
  then map_add "models" (array_value processor_list) processors_value
  else processors_value.

(** Lines 65 to 71, the end of the routine. *)
Definition assemble (processors_value : fields) (processor_list : list value)
  (facts : collection) : collection :=
  let processors_value := attach_models processor_list processors_value in
  if negb (map_is_empty processors_value)
  then collection_add fact_processors (map_value processors_value) facts
  else facts.

(** [vector<char> buffer(256)] *)
Definition initial_buffer : vector :=
  {| storage := replicate 256 NUL; vlen := 256 |}.

(** The routine: the calls it made to the kernel and how it ended.  [None]
    says that [fuel] passes through the loop were not enough to see it
    end. *)
Definition resolve_structured_processors (fuel : nat) (k : kernel)
  (facts : collection) : option (list call * outcome) :=
  let processors_value : fields := ∅ in
  let calls := [Call "hw.logicalcpu_max" sizeof_int] in
  let '(rc, logical_count) := sysctl_int (hw_logicalcpu_max k) 0 in
  let processors_value :=
    if negb (rc =? 0) then processors_value
    else map_add "count" (integer_value logical_count) processors_value in
  let calls := calls ++ [Call "hw.physicalcpu_max" sizeof_int] in
  let '(rc, physical_count) := sysctl_int (hw_physicalcpu_max k) 0 in
  let processors_value :=
    if negb (rc =? 0) then processors_value
    else map_add "physicalcount" (integer_value physical_count)
           processors_value in
  let processor_list : list value := [] in
  if 0 <? logical_count then
    match brand_loop fuel k initial_buffer with
    | None => None
    | Some (asked, Failed e) => Some (calls ++ asked, Raised e facts)
    | Some (asked, Abandoned) => Some (calls ++ asked, Returned facts)
    | Some (asked, Found buffer) =>
        let description := c_str (storage buffer) in
        let processor_list :=
          add_models (Z.to_nat logical_count) description processor_list in
        Some (calls ++ asked,
              Returned (assemble processors_value processor_list facts))
    end
  else Some (calls, Returned (assemble processors_value processor_list facts)).

(** ** Vocabulary of the properties *)

Definition succeeded (r : string_reply) : bool := str_rc r =? 0.

(** The insufficient-buffer condition: the call failed with [ENOMEM]. *)
Definition insufficient (r : string_reply) : bool :=
  negb (str_rc r =? 0) && (str_errno r =? ENOMEM).

(** Any other failure. *)
Definition refused (r : string_reply) : bool :=
  negb (str_rc r =? 0) && negb (str_errno r =? ENOMEM).

(** The size of the buffer after [j] doublings of the first one. *)
Definition attempt_size (j : nat) : N := (256 * 2 ^ N.of_nat j)%N.

Definition brand_reply (k : kernel) (j : nat) : string_reply :=
  machdep_cpu_brand_string k (attempt_size j).

(** The first [j] attempts all met the insufficient-buffer condition. *)
Definition retried (k : kernel) (j : nat) : bool :=
  forallb (fun i => insufficient (brand_reply k i)) (seq 0 j).

(** The first [j] doublings of the buffer all got their memory. *)
Definition grown (k : kernel) (j : nat) : bool :=
  forallb (fun i => memory k (attempt_size (S i))) (seq 0 j).

(** The machine has the memory for every size up to [n]. *)
Definition roomy (k : kernel) (n : N) : Prop :=
  forall m, (m <= n)%N -> memory k m = true.

(** All of the [n] attempts from the [i]-th on met the insufficient-buffer
    condition and got the doubled buffer. *)
Definition retried_from (k : kernel) (i n : nat) : Prop :=
  forall d, (d < n)%nat ->
    insufficient (brand_reply k (i + d)) = true
    /\ memory k (attempt_size (S (i + d))) = true.

(** The exception, if any, with which a pass through the loop body ends
    that starts with a buffer of [n] characters, all of them in use.  After
    a call that succeeds, [resize(size + 1)] has to grow the buffer when the
    kernel filled it; after a call that reports the insufficient-buffer
    condition, [resize(buffer.size() * 2)] always has to. *)
Definition overflow (k : kernel) (n : N) : option exn :=
  let r := machdep_cpu_brand_string k n in
  if succeeded r then
    if (N.of_nat (length (str_data r)) <? n)%N then None
    else if (vector_max_size <? n + 1)%N then Some length_error
    else if memory k (n + 1) then None
    else Some bad_alloc
  else if insufficient r then
    if (vector_max_size <? n * 2)%N then Some length_error
    else if memory k (n * 2) then None
    else Some bad_alloc
  else None.

(** The calls of [n] attempts in a row, the first with the size of the
    [i]-th attempt. *)
Definition asked (i n : nat) : list call :=
  (fun j => Call "machdep.cpu.brand_string" (attempt_size j)) <$> seq i n.

(** A run of the loop that comes after the calls [calls]. *)
Definition after (calls : list call) (run : option (list call * loop_exit))
  : option (list call * loop_exit) :=
  match run with
  | Some (calls', e) => Some (calls ++ calls', e)
  | None => None
  end.

(** The two calls for the counts, with which every run starts. *)
Definition count_calls : list call :=
  [Call "hw.logicalcpu_max" sizeof_int; Call "hw.physicalcpu_max" sizeof_int].

(** A vector all of whose memory is in use. *)
Definition full (buffer : vector) : Prop :=
  length (storage buffer) = vlen buffer.

(** The buffers the loop works with: the buffer of the [j]-th attempt has
    the size of that attempt, uses all its memory and ends in a zero. *)
Definition attempt_buffer (j : nat) (buffer : vector) : Prop :=
  vsize buffer = attempt_size j
  /\ full buffer
  /\ last (storage buffer) = Some NUL.

(** The buffer a call that reports the insufficient-buffer condition leaves
    behind, after [resize(buffer.size() * 2)] got its memory. *)
Definition doubled (data : list ascii) (buffer : vector) : vector :=
  let '(buffer, _) := copyout data buffer in
  {| storage := storage buffer ++ replicate (vlen buffer) NUL;
     vlen := 2 * vlen buffer |}.

(** The buffer a successful call leaves behind, after [resize(size + 1)]:
    shorter, with what it held beyond the new size still in its memory, or,
    when the kernel filled it, one zero longer. *)
Definition terminated (data : list ascii) (buffer : vector) : vector :=
  let '(buffer, size) := copyout data buffer in
  let n := N.to_nat (size + 1) in
  if (n <=? vlen buffer)%nat
  then {| storage := storage buffer; vlen := n |}
  else {| storage := storage buffer ++ [NUL]; vlen := n |}.

(** The way the [j]-th attempt ends the loop, if it begins with [buffer]
    and is not followed by another. *)
Definition exit_at (k : kernel) (j : nat) (buffer : vector) : loop_exit :=
  match overflow k (attempt_size j) with
  | Some e => Failed e
  | None =>
      if succeeded (brand_reply k j)
      then Found (terminated (str_data (brand_reply k j)) buffer)
      else Abandoned
  end.

(** The pass through the loop body that starts with [buffer] ends the loop,
    and ends it with [e]. *)
Definition stops (k : kernel) (buffer : vector) (e : loop_exit) : Prop :=
  match brand_iteration k buffer with
  | Retry _ => False
  | Break buffer' => e = Found buffer'
  | Return => e = Abandoned
  | Throw x => e = Failed x
  end.

(** The integer variables after their queries. *)
Definition logical_count (k : kernel) : Z :=
  snd (sysctl_int (hw_logicalcpu_max k) 0).
Definition physical_count (k : kernel) : Z :=
  snd (sysctl_int (hw_physicalcpu_max k) 0).

(** The record after the two integer queries. *)
Definition counts (k : kernel) : fields :=
  let processors_value : fields := ∅ in
  let processors_value :=
    if negb (int_rc (hw_logicalcpu_max k) =? 0) then processors_value
    else map_add "count" (integer_value (logical_count k)) processors_value in
  if negb (int_rc (hw_physicalcpu_max k) =? 0) then processors_value
  else map_add "physicalcount" (integer_value (physical_count k))
         processors_value.

(** The list of models for a brand string. *)
Definition models (k : kernel) (description : string) : list value :=
  replicate (Z.to_nat (logical_count k)) (string_value description).

(** The record with all three fields, as the variables and a brand string
    fill them. *)
Definition full_record (k : kernel) (description : string) : fields :=
  {[ "count" := integer_value (logical_count k);
     "physicalcount" := integer_value (physical_count k);
     "models" := array_value (models k description) ]}.

(** The routine left the collection alone, or added the record [r] to it. *)
Definition untouched (facts facts' : collection) : Prop :=
  facts' = facts.
Definition added (r : fields) (facts facts' : collection) : Prop :=
  facts' = collection_add fact_processors (map_value r) facts.

(** The record that went out, if one did, has no field [name]. *)
Definition lacks (name : string) (facts facts' : collection) : Prop :=
  untouched facts facts'
  \/ exists r, added r facts facts' /\ r !! name = None.

(** The way the routine ends when the [j]-th attempt, begun with [buffer],
    is the last. *)
Definition outcome_at (k : kernel) (j : nat) (buffer : vector)
  (facts : collection) : outcome :=
  match exit_at k j buffer with
  | Failed e => Raised e facts
  | Abandoned => Returned facts
  | Found buffer =>
      Returned (assemble (counts k) (models k (c_str (storage buffer))) facts)
  end.

(** The same machine with another brand string query. *)
Definition with_brand (k : kernel) (brand : N -> string_reply) : kernel :=
  {| hw_logicalcpu_max := hw_logicalcpu_max k;
     hw_physicalcpu_max := hw_physicalcpu_max k;
     machdep_cpu_brand_string := brand;
     memory := memory k |}.

(** ** Some machines *)

Definition int_ok (v : Z) : int_reply := {| int_rc := 0; int_stored := Some v |}.
Definition int_failed : int_reply := {| int_rc := -1; int_stored := None |}.

Definition brand_ok (s : string) : string_reply :=
  {| str_rc := 0; str_errno := 0; str_data := list_ascii_of_string s ++ [NUL] |}.
Definition brand_error (errno : Z) : string_reply :=
  {| str_rc := -1; str_errno := errno; str_data := [] |}.

(** The query of a string as sysctl(3) describes it: the string goes out
    with its closing zero if the buffer has room for it; if not, the call
    fails with [ENOMEM] after copying what fits. *)
Definition sysctl_string (s : string) (oldlen : N) : string_reply :=
  let data := list_ascii_of_string s ++ [NUL] in
  if (N.of_nat (length data) <=? oldlen)%N
  then {| str_rc := 0; str_errno := 0; str_data := data |}
  else {| str_rc := -1; str_errno := ENOMEM; str_data := data |}.

(** Memory for a buffer of up to 2^33 characters (8 GiB) and no more. *)
Definition eight_gib (n : N) : bool := (n <=? 2 ^ 33)%N.

(** Memory without end. *)
Definition boundless (n : N) : bool := true.

(** A brand string of 600 characters. *)
Definition long_brand : string :=
  string_of_list_ascii (replicate 600 "x"%char).

(** Four logical processors on two cores. *)
Definition example_kernel : kernel :=
  {| hw_logicalcpu_max := int_ok 4;
     hw_physicalcpu_max := int_ok 2;
     machdep_cpu_brand_string := sysctl_string "Example CPU";
     memory := eight_gib |}.

(** A kernel that never has enough room. *)
Definition starved_kernel : kernel :=
  {| hw_logicalcpu_max := int_ok 4;
     hw_physicalcpu_max := int_ok 2;
     machdep_cpu_brand_string := fun _ => brand_error ENOMEM;
     memory := eight_gib |}.

(** The same on a machine whose memory never runs out. *)
Definition starved_boundless_kernel : kernel :=
  {| hw_logicalcpu_max := int_ok 4;
     hw_physicalcpu_max := int_ok 2;
     machdep_cpu_brand_string := fun _ => brand_error ENOMEM;
     memory := boundless |}.

(** A kernel that knows the counts and refuses the brand string ([EPERM]). *)
Definition refusing_kernel : kernel :=
  {| hw_logicalcpu_max := int_ok 4;
     hw_physicalcpu_max := int_ok 2;
     machdep_cpu_brand_string := fun _ => brand_error 1;
     memory := eight_gib |}.

(** A kernel on which the logical count query fails and leaves the variable
    alone, while the other two queries would succeed. *)
Definition countless_kernel : kernel :=
  {| hw_logicalcpu_max := int_failed;
     hw_physicalcpu_max := int_ok 2;
     machdep_cpu_brand_string := fun _ => brand_ok "Example CPU";
     memory := eight_gib |}.

(** A kernel that reports no logical processor. *)
Definition idle_kernel : kernel :=
  {| hw_logicalcpu_max := int_ok 0;
     hw_physicalcpu_max := int_ok 2;
     machdep_cpu_brand_string := fun _ => brand_ok "Example CPU";
     memory := eight_gib |}.

(** A kernel on which every query fails. *)
Definition mute_kernel : kernel :=
  {| hw_logicalcpu_max := int_failed;
     hw_physicalcpu_max := int_failed;
     machdep_cpu_brand_string := fun _ => brand_error 1;
     memory := eight_gib |}.

(** A kernel whose brand string needs a buffer of 1024 characters, and on
    which the physical count query fails. *)
Definition wordy_kernel : kernel :=
  {| hw_logicalcpu_max := int_ok 2;
     hw_physicalcpu_max := int_failed;
     machdep_cpu_brand_string := sysctl_string long_brand;
     memory := eight_gib |}.

(** A kernel whose logical count comes out negative. *)
Definition negative_kernel : kernel :=
  {| hw_logicalcpu_max := int_ok (-1);
     hw_physicalcpu_max := int_ok 2;
     machdep_cpu_brand_string := sysctl_string "Example CPU";
     memory := eight_gib |}.

(** A kernel that fills any buffer to the last character and reports
    success, without a closing zero. *)
Definition unterminated_kernel : kernel :=
  {| hw_logicalcpu_max := int_ok 2;
     hw_physicalcpu_max := int_ok 1;
     machdep_cpu_brand_string := fun n =>
       {| str_rc := 0; str_errno := 0;
          str_data := replicate (N.to_nat n) "x"%char |};
     memory := eight_gib |}.

(** The same on a machine that has no memory left for one more
    character. *)
Definition cramped_kernel : kernel :=
  {| hw_logicalcpu_max := int_ok 2;
     hw_physicalcpu_max := int_ok 1;
     machdep_cpu_brand_string := fun n =>
       {| str_rc := 0; str_errno := 0;
          str_data := replicate (N.to_nat n) "x"%char |};
     memory := fun _ => false |}.

(** A kernel that fills the first buffer with 256 characters and reports
    the insufficient-buffer condition, and then delivers two characters
    without a closing zero. *)
Definition stale_kernel : kernel :=
  {| hw_logicalcpu_max := int_ok 1;
     hw_physicalcpu_max := int_ok 1;
     machdep_cpu_brand_string := fun n =>
       if (n <=? 256)%N
       then {| str_rc := -1; str_errno := ENOMEM;
               str_data := replicate 256 "x"%char |}
       else {| str_rc := 0; str_errno := 0; str_data := ["a"; "b"]%char |};
     memory := eight_gib |}.

(** * Runs of the model *)

Example resize_grows_with_zeros :
  resize eight_gib 3 {| storage := ["a"; "b"]%char; vlen := 2 |}
  = inr {| storage := ["a"; "b"; NUL]%char; vlen := 3 |}.
Proof. reflexivity. Qed.

Example resize_shrinks_in_place :
  resize eight_gib 1 {| storage := ["a"; "b"]%char; vlen := 2 |}
  = inr {| storage := ["a"; "b"]%char; vlen := 1 |}.
Proof. reflexivity. Qed.

Example resize_grows_in_place :
  resize (fun _ => false) 2 {| storage := ["a"; "b"; "c"]%char; vlen := 1 |}
  = inr {| storage := ["a"; NUL; "c"]%char; vlen := 2 |}.
Proof. reflexivity. Qed.

Example resize_too_large :
  resize boundless (2 ^ 63) initial_buffer = inl length_error.
Proof. reflexivity. Qed.

Example resize_no_memory :
  resize eight_gib (2 ^ 34) initial_buffer = inl bad_alloc
  /\ resize eight_gib (2 ^ 63 - 1) initial_buffer = inl bad_alloc.
Proof. split; reflexivity. Qed.

Example c_str_stops_at_zero : c_str ["a"; "b"; NUL; "c"]%char = "ab"%string.
Proof. reflexivity. Qed.

Example example_run :
  resolve_structured_processors 1 example_kernel ∅
  = Some ([Call "hw.logicalcpu_max" 4; Call "hw.physicalcpu_max" 4;
           Call "machdep.cpu.brand_string" 256],
          Returned
            {[ "processors" :=
                 map_value
                   {[ "count" := integer_value 4;
                      "physicalcount" := integer_value 2;
                      "models" :=
                        array_value
                          [string_value "Example CPU"; string_value "Example CPU";
                           string_value "Example CPU"; string_value "Example CPU"]
                   ]} ]}).
Proof. vm_compute. reflexivity. Qed.

(** Two failed attempts leave 512 characters of the string in the buffer;
    the third call overwrites them. *)
Example wordy_run :
  resolve_structured_processors 2 wordy_kernel ∅ = None
  /\ resolve_structured_processors 3 wordy_kernel ∅
     = Some ([Call "hw.logicalcpu_max" 4; Call "hw.physicalcpu_max" 4;
              Call "machdep.cpu.brand_string" 256;
              Call "machdep.cpu.brand_string" 512;
              Call "machdep.cpu.brand_string" 1024],
             Returned
               {[ "processors" :=
                    map_value
                      {[ "count" := integer_value 2;
                         "models" :=
                           array_value
                             [string_value long_brand;
                              string_value long_brand] ]} ]}).
Proof. vm_compute. auto. Qed.

Example refusing_run :
  resolve_structured_processors 1 refusing_kernel ∅
  = Some ([Call "hw.logicalcpu_max" 4; Call "hw.physicalcpu_max" 4;
           Call "machdep.cpu.brand_string" 256],
          Returned ∅).
Proof. reflexivity. Qed.

Example countless_run :
  resolve_structured_processors 0 countless_kernel ∅
  = Some ([Call "hw.logicalcpu_max" 4; Call "hw.physicalcpu_max" 4],
          Returned
            {[ "processors" :=
                 map_value {[ "physicalcount" := integer_value 2 ]} ]}).
Proof. vm_compute. reflexivity. Qed.

Example mute_run :
  resolve_structured_processors 0 mute_kernel ∅
  = Some ([Call "hw.logicalcpu_max" 4; Call "hw.physicalcpu_max" 4],
          Returned ∅).
Proof. reflexivity. Qed.

(** A reply that fills the buffer without a zero is closed by the zero of
    [resize(size + 1)], for which the buffer has to grow. *)
Example unterminated_run :
  resolve_structured_processors 1 unterminated_kernel ∅
  = Some ([Call "hw.logicalcpu_max" 4; Call "hw.physicalcpu_max" 4;
           Call "machdep.cpu.brand_string" 256],
          Returned
            {[ "processors" :=
                 map_value
                   {[ "count" := integer_value 2;
                      "physicalcount" := integer_value 1;
                      "models" :=
                        array_value
                          (replicate 2
                             (string_value
                                (string_of_list_ascii
                                   (replicate 256 "x"%char)))) ]} ]}).
Proof. vm_compute. reflexivity. Qed.

(** And when there is no memory for that one character, [std::bad_alloc]
    leaves the routine although the call succeeded. *)
Example cramped_run :
  resolve_structured_processors 1 cramped_kernel ∅
  = Some ([Call "hw.logicalcpu_max" 4; Call "hw.physicalcpu_max" 4;
           Call "machdep.cpu.brand_string" 256],
          Raised bad_alloc ∅).
Proof. reflexivity. Qed.

(** A reply without a zero that does not fill the buffer is read together
    with what earlier attempts left behind it: [resize(size + 1)] shrinks
    the vector and leaves its memory as it is. *)
Example stale_run :
  resolve_structured_processors 2 stale_kernel ∅
  = Some ([Call "hw.logicalcpu_max" 4; Call "hw.physicalcpu_max" 4;
           Call "machdep.cpu.brand_string" 256;
           Call "machdep.cpu.brand_string" 512],
          Returned
            {[ "processors" :=
                 map_value
                   {[ "count" := integer_value 1;
                      "physicalcount" := integer_value 1;
                      "models" :=
                        array_value
                          [string_value
                             (string_of_list_ascii
                                (["a"; "b"]%char
                                   ++ replicate 254 "x"%char))] ]} ]}).
Proof. vm_compute. reflexivity. Qed.

(** * Properties *)

Create HintDb facter discriminated.

(** ** The buffer *)

Lemma vector_max_size_eq : vector_max_size = 9223372036854775807%N.
Proof. reflexivity. Qed.

Lemma size_t_small (n : N) : (n < 2 ^ 64)%N -> size_t n = n.
Proof. intros H. unfold size_t. now apply N.mod_small. Qed.

Lemma vsize_copyout (data : list ascii) (buffer : vector) :
  vsize (fst (copyout data buffer)) = vsize buffer.
Proof. reflexivity. Qed.

Lemma copyout_size (data : list ascii) (buffer : vector) :
  (snd (copyout data buffer) <= vsize buffer)%N.
Proof.
  unfold copyout, vsize; simpl. rewrite length_take. lia.
Qed.

Lemma copyout_full (data : list ascii) (buffer : vector) :
  full buffer -> full (fst (copyout data buffer)).
Proof.
  unfold full, copyout; simpl. intros Hfull.
  rewrite length_app, length_drop, length_take. lia.
Qed.

(** The kernel fills the buffer exactly when it has at least as many
    characters to deliver as the buffer has elements. *)
Lemma copyout_fills (data : list ascii) (buffer : vector) :
  (N.of_nat (length data) <? vsize buffer)%N
  = (snd (copyout data buffer) <? vsize buffer)%N.
Proof.
  unfold copyout, vsize; simpl. rewrite length_take.
  destruct (N.ltb_spec (N.of_nat (length data)) (N.of_nat (vlen buffer))),
    (N.ltb_spec (N.of_nat (vlen buffer `min` length data))
       (N.of_nat (vlen buffer))); try reflexivity; lia.
Qed.

Lemma resize_throws_length_error (memory : N -> bool) (n : N)
  (buffer : vector) :
  (vector_max_size < n)%N -> resize memory n buffer = inl length_error.
Proof.
  intros H. unfold resize.
  destruct (N.ltb_spec vector_max_size n) as [_|Hle]; [reflexivity | lia].
Qed.

Lemma resize_shrinks (memory : N -> bool) (n : N) (buffer : vector) :
  (n <= vector_max_size)%N ->
  (n <= vsize buffer)%N ->
  resize memory n buffer
  = inr {| storage := storage buffer; vlen := N.to_nat n |}.
Proof.
  intros Hfit Hle. unfold resize, vsize in *.
  destruct (N.ltb_spec vector_max_size n) as [Hlt|_]; [lia |].
  destruct (Nat.leb_spec (N.to_nat n) (vlen buffer)) as [_|Hgt];
    [reflexivity | lia].
Qed.

Lemma resize_grows (memory : N -> bool) (n : N) (buffer : vector) :
  full buffer ->
  (n <= vector_max_size)%N ->
  (vsize buffer < n)%N ->
  resize memory n buffer
  = if memory n
    then inr {| storage := storage buffer
                             ++ replicate (N.to_nat n - vlen buffer) NUL;
                vlen := N.to_nat n |}
    else inl bad_alloc.
Proof.
  intros Hfull Hfit Hlt. unfold resize, vsize, full in *.
  destruct (N.ltb_spec vector_max_size n) as [Hbig|_]; [lia |].
  destruct (Nat.leb_spec (N.to_nat n) (vlen buffer)) as [Hle|_]; [lia |].
  rewrite Hfull.
  destruct (Nat.leb_spec (N.to_nat n) (vlen buffer)) as [Hle|_]; [lia |].
  now rewrite take_ge by lia.
Qed.

Lemma attempt_size_S (j : nat) : attempt_size (S j) = (attempt_size j * 2)%N.
Proof.
  unfold attempt_size. rewrite Nat2N.inj_succ, N.pow_succ_r'. lia.
Qed.

Lemma attempt_size_mono (i j : nat) :
  (i <= j)%nat -> (attempt_size i <= attempt_size j)%N.
Proof.
  induction 1 as [|j _ IH]; [lia |].
  rewrite attempt_size_S. lia.
Qed.

Lemma attempt_size_pos (j : nat) : (256 <= attempt_size j)%N.
Proof. apply (attempt_size_mono 0 j). lia. Qed.

(** A buffer of a size the loop uses is never a largest vector: the sizes
    are even, the largest size is not. *)
Lemma attempt_size_below_max (j : nat) :
  (attempt_size j <= vector_max_size)%N -> (attempt_size j < vector_max_size)%N.
Proof.
  rewrite vector_max_size_eq. unfold attempt_size.
  generalize (2 ^ N.of_nat j)%N. intros x Hx. lia.
Qed.

Lemma attempt_size_54 : attempt_size 54 = 4611686018427387904%N.
Proof. reflexivity. Qed.

(** The sizes a vector can have are those of the first 55 attempts. *)
Lemma attempt_size_fits (j : nat) :
  (j < 55)%nat -> (attempt_size j <= vector_max_size)%N.
Proof.
  intros Hj. pose proof (attempt_size_mono j 54 ltac:(lia)) as Hle.
  rewrite attempt_size_54 in Hle. rewrite vector_max_size_eq. lia.
Qed.

Lemma attempt_size_fits_inv (j : nat) :
  (attempt_size j <= vector_max_size)%N -> (j < 55)%nat.
Proof.
  intros Hfit. destruct (Nat.lt_ge_cases j 55) as [|Hge]; [assumption |].
  pose proof (attempt_size_mono 55 j Hge) as Hle.
  rewrite attempt_size_S, attempt_size_54 in Hle.
  rewrite vector_max_size_eq in Hfit. lia.
Qed.

Lemma attempt_size_55 : (vector_max_size < attempt_size 54 * 2)%N.
Proof. rewrite attempt_size_54, vector_max_size_eq. lia. Qed.

#[local] Hint Resolve attempt_size_fits attempt_size_below_max : facter.

Lemma last_app_replicate (l : list ascii) (n : nat) :
  (0 < n)%nat -> last (l ++ replicate n NUL) = Some NUL.
Proof.
  intros Hn. destruct n as [|n]; [lia |].
  rewrite replicate_S_end, app_assoc. apply last_snoc.
Qed.

Lemma initial_attempt_buffer : attempt_buffer 0 initial_buffer.
Proof. repeat split. Qed.

(** Doubling takes the buffer of an attempt to that of the next. *)
Lemma doubled_attempt_buffer (j : nat) (data : list ascii) (buffer : vector) :
  attempt_buffer j buffer -> attempt_buffer (S j) (doubled data buffer).
Proof.
  intros (Hsize & Hfull & _).
  pose proof (attempt_size_pos j) as Hpos.
  pose proof (copyout_full data buffer Hfull) as Hfull'.
  unfold doubled, attempt_buffer, full, vsize in *.
  destruct (copyout data buffer) as [b size] eqn:Hcopy.
  assert (Hlen : vlen b = vlen buffer)
    by (unfold copyout in Hcopy; now inversion Hcopy).
  simpl in *. rewrite attempt_size_S, <- Hsize, Hlen.
  repeat split.
  - lia.
  - rewrite length_app, length_replicate. lia.
  - apply last_app_replicate. lia.
Qed.

(** ** One pass through the loop body *)

Lemma reply_cases (r : string_reply) :
  succeeded r = true /\ insufficient r = false /\ refused r = false
  \/ succeeded r = false /\ insufficient r = true /\ refused r = false
  \/ succeeded r = false /\ insufficient r = false /\ refused r = true.
Proof.
  unfold succeeded, insufficient, refused.
  destruct (str_rc r =? 0), (str_errno r =? ENOMEM); simpl; tauto.
Qed.

(** Case analysis on the kind of a reply; contradictory cases are closed. *)
Ltac reply_kind r Hs Hi Hr :=
  destruct (reply_cases r) as [(Hs & Hi & Hr) | [(Hs & Hi & Hr) | (Hs & Hi & Hr)]];
  try congruence.

(** Splits [insufficient r = true] or [refused r = true] into its tests. *)
Ltac failed_tests H Hrc Herr :=
  apply andb_true_iff in H as [Hrc Herr];
  apply negb_true_iff in Hrc;
  try apply negb_true_iff in Herr.

Section Iteration.

Context (k : kernel) (buffer : vector).

Local Abbreviation r := (machdep_cpu_brand_string k (vsize buffer)).

(** A pass through the loop body, for a buffer that uses all its memory:
    what it does is told by the reply of the kernel and by whether
    [resize] throws. *)
Lemma iteration_spec :
  full buffer ->
  (0 < vsize buffer <= vector_max_size)%N ->
  brand_iteration k buffer
  = match overflow k (vsize buffer) with
    | Some e => Throw e
    | None =>
        if succeeded r then Break (terminated (str_data r) buffer)
        else if insufficient r then Retry (doubled (str_data r) buffer)
        else Return
    end.
Proof.
  intros Hfull [Hpos Hmax].
  unfold brand_iteration, overflow, terminated, doubled,
    succeeded, insufficient.
  pose proof (vsize_copyout (str_data r) buffer) as Hlen.
  pose proof (copyout_size (str_data r) buffer) as Hsize.
  pose proof (copyout_full (str_data r) buffer Hfull) as Hfull'.
  rewrite (copyout_fills (str_data r) buffer).
  destruct (copyout (str_data r) buffer) as [b size]; simpl in *.
  rewrite vector_max_size_eq in Hmax.
  destruct (str_rc r =? 0); simpl.
  - rewrite size_t_small by lia.
    destruct (N.ltb_spec size (vsize buffer)) as [Hlt|Hge].
    + rewrite resize_shrinks by (rewrite ?vector_max_size_eq, ?Hlen; lia).
      destruct (Nat.leb_spec (N.to_nat (size + 1)) (vlen b)) as [_|Hgt];
        [reflexivity |].
      unfold vsize in *. lia.
    + assert (Hsize' : size = vsize buffer) by lia. subst size.
      destruct (N.ltb_spec vector_max_size (vsize buffer + 1)) as [Hbig|Hfit].
      * now rewrite resize_throws_length_error.
      * rewrite resize_grows by (rewrite ?Hlen; assumption || lia).
        destruct (memory k (vsize buffer + 1)); [| reflexivity].
        destruct (Nat.leb_spec (N.to_nat (vsize buffer + 1)) (vlen b))
          as [Hle|_]; [unfold vsize in *; lia |].
        replace (N.to_nat (vsize buffer + 1) - vlen b)%nat with 1%nat
          by (unfold vsize in *; lia).
        reflexivity.
  - destruct (str_errno r =? ENOMEM); simpl; [| reflexivity].
    rewrite Hlen, size_t_small by lia.
    destruct (N.ltb_spec vector_max_size (vsize buffer * 2)) as [Hbig|Hfit].
    + now rewrite resize_throws_length_error.
    + rewrite resize_grows by (rewrite ?Hlen; assumption || lia).
      destruct (memory k (vsize buffer * 2)); [| reflexivity].
      assert (Hb : vlen b = vlen buffer) by (unfold vsize in Hlen; lia).
      replace (N.to_nat (vsize buffer * 2) - vlen b)%nat with (vlen b)
        by (unfold vsize; lia).
      replace (N.to_nat (vsize buffer * 2)) with (2 * vlen b)%nat
        by (unfold vsize; lia).
      reflexivity.
Qed.

End Iteration.

(** ** The loop *)

Lemma asked_S (i n : nat) :
  asked i (S n)
  = asked i n ++ [Call "machdep.cpu.brand_string" (attempt_size (i + n))].
Proof. unfold asked. now rewrite seq_S, fmap_app. Qed.

Lemma length_asked (i n : nat) : length (asked i n) = n.
Proof. unfold asked. now rewrite length_fmap, length_seq. Qed.

Lemma after_nil (run : option (list call * loop_exit)) : after [] run = run.
Proof. now destruct run as [[calls e]|]. Qed.

Lemma after_after (calls calls' : list call)
  (run : option (list call * loop_exit)) :
  after calls (after calls' run) = after (calls ++ calls') run.
Proof.
  destruct run as [[calls'' e]|]; simpl; [| reflexivity].
  now rewrite app_assoc.
Qed.

Section Loop.

Context (k : kernel).

Lemma retried_S (j : nat) :
  retried k (S j) = retried k j && insufficient (brand_reply k j).
Proof.
  unfold retried. rewrite seq_S, forallb_app; simpl.
  now rewrite andb_true_r.
Qed.

Lemma retried_le (i j : nat) :
  (i <= j)%nat -> retried k j = true -> retried k i = true.
Proof.
  induction 1 as [|j _ IH]; [trivial |].
  rewrite retried_S. intros [H _]%andb_true_iff. auto.
Qed.

Lemma retried_lt (i j : nat) :
  (i < j)%nat -> retried k j = true -> insufficient (brand_reply k i) = true.
Proof.
  intros Hlt Hj. apply (retried_le (S i) j) in Hj; [| lia].
  rewrite retried_S in Hj. now apply andb_true_iff in Hj.
Qed.

Lemma grown_S (j : nat) :
  grown k (S j) = grown k j && memory k (attempt_size (S j)).
Proof.
  unfold grown. rewrite seq_S, forallb_app; simpl.
  now rewrite andb_true_r.
Qed.

Lemma grown_le (i j : nat) :
  (i <= j)%nat -> grown k j = true -> grown k i = true.
Proof.
  induction 1 as [|j _ IH]; [trivial |].
  rewrite grown_S. intros [H _]%andb_true_iff. auto.
Qed.

Lemma grown_lt (i j : nat) :
  (i < j)%nat -> grown k j = true -> memory k (attempt_size (S i)) = true.
Proof.
  intros Hlt Hj. apply (grown_le (S i) j) in Hj; [| lia].
  rewrite grown_S in Hj. now apply andb_true_iff in Hj.
Qed.

Lemma roomy_grown (j : nat) : roomy k (attempt_size j) -> grown k j = true.
Proof.
  intros Hroom. induction j as [|j IH]; [reflexivity |].
  rewrite grown_S. apply andb_true_iff. split.
  - apply IH. intros m Hm. apply Hroom.
    pose proof (attempt_size_mono j (S j) ltac:(lia)). lia.
  - apply Hroom. lia.
Qed.

Lemma retried_from_spec (j : nat) :
  retried k j = true /\ grown k j = true <-> retried_from k 0 j.
Proof.
  split.
  - intros [Hr Hg] d Hd. split; [now apply (retried_lt d j) |].
    now apply (grown_lt d j).
  - induction j as [|j IH]; intros Hfrom; [split; reflexivity |].
    destruct IH as [Hr Hg]; [intros d Hd; apply Hfrom; lia |].
    destruct (Hfrom j ltac:(lia)) as [Hi Hm].
    rewrite retried_S, grown_S, Hr, Hg. simpl in Hi, Hm. now rewrite Hi, Hm.
Qed.

Lemma retried_from_S (i n : nat) :
  retried_from k i (S n) <->
  (insufficient (brand_reply k i) = true
   /\ memory k (attempt_size (S i)) = true)
  /\ retried_from k (S i) n.
Proof.
  unfold retried_from. split.
  - intros H. split.
    + specialize (H 0%nat). rewrite Nat.add_0_r in H. apply H. lia.
    + intros d Hd. specialize (H (S d)).
      rewrite Nat.add_succ_r in H. apply H. lia.
  - intros [H0 H] [|d] Hd.
    + now rewrite Nat.add_0_r.
    + rewrite Nat.add_succ_r. apply H. lia.
Qed.

(** The pass of the [j]-th attempt. *)
Lemma attempt_iteration (j : nat) (buffer : vector) :
  attempt_buffer j buffer ->
  (attempt_size j <= vector_max_size)%N ->
  brand_iteration k buffer
  = match overflow k (attempt_size j) with
    | Some e => Throw e
    | None =>
        if succeeded (brand_reply k j)
        then Break (terminated (str_data (brand_reply k j)) buffer)
        else if insufficient (brand_reply k j)
             then Retry (doubled (str_data (brand_reply k j)) buffer)
             else Return
    end.
Proof.
  intros (Hsize & Hfull & _) Hfit.
  pose proof (attempt_size_pos j) as Hpos.
  rewrite iteration_spec by (rewrite ?Hsize; assumption || lia).
  unfold brand_reply. now rewrite Hsize.
Qed.

(** After a call that reports the insufficient-buffer condition [resize]
    does not throw exactly when a vector can have the doubled size and the
    memory for it is there. *)
Lemma overflow_insufficient (j : nat) :
  insufficient (brand_reply k j) = true ->
  overflow k (attempt_size j) = None
  <-> (attempt_size (S j) <= vector_max_size)%N
      /\ memory k (attempt_size (S j)) = true.
Proof.
  intros Hi. unfold overflow. fold (brand_reply k j).
  reply_kind (brand_reply k j) Hs Hi' Hr. rewrite Hs, Hi.
  rewrite <- attempt_size_S.
  destruct (N.ltb_spec vector_max_size (attempt_size (S j))) as [Hbig|Hfit].
  - split; [discriminate | lia].
  - destruct (memory k (attempt_size (S j))).
    + split; auto.
    + split; [discriminate | intros [_ H]; discriminate].
Qed.

(** After a call that is refused [resize] is not called. *)
Lemma overflow_refused (j : nat) :
  refused (brand_reply k j) = true -> overflow k (attempt_size j) = None.
Proof.
  intros Hr. unfold overflow. fold (brand_reply k j).
  reply_kind (brand_reply k j) Hs Hi Hr'. now rewrite Hs, Hi.
Qed.

(** After a call that succeeds [resize] does not throw when the kernel
    left room in the buffer or there is memory for one more character. *)
Lemma overflow_succeeded (j : nat) :
  succeeded (brand_reply k j) = true ->
  (attempt_size j <= vector_max_size)%N ->
  (N.of_nat (length (str_data (brand_reply k j))) < attempt_size j)%N
  \/ memory k (attempt_size j + 1) = true ->
  overflow k (attempt_size j) = None.
Proof.
  intros Hs Hfit Hroom. unfold overflow. fold (brand_reply k j).
  rewrite Hs.
  destruct (N.ltb_spec (N.of_nat (length (str_data (brand_reply k j))))
              (attempt_size j)) as [_|Hge]; [reflexivity |].
  apply attempt_size_below_max in Hfit.
  destruct (N.ltb_spec vector_max_size (attempt_size j + 1)) as [Hbig|_];
    [lia |].
  destruct Hroom as [Hlt | ->]; [lia | reflexivity].
Qed.

Lemma brand_loop_S (fuel : nat) (buffer : vector) :
  brand_loop (S fuel) k buffer
  = match brand_iteration k buffer with
    | Retry buffer' =>
        after [Call "machdep.cpu.brand_string" (vsize buffer)]
          (brand_loop fuel k buffer')
    | Break buffer' =>
        Some ([Call "machdep.cpu.brand_string" (vsize buffer)], Found buffer')
    | Return =>
        Some ([Call "machdep.cpu.brand_string" (vsize buffer)], Abandoned)
    | Throw e =>
        Some ([Call "machdep.cpu.brand_string" (vsize buffer)], Failed e)
    end.
Proof.
  simpl. now destruct (brand_iteration k buffer).
Qed.

(** While the kernel asks for more room and the doubled buffer gets its
    memory, the loop comes round again with a buffer twice as large: [j]
    such passes take the buffer of the [i]-th attempt to that of the
    [i + j]-th. *)
Lemma brand_loop_retries (j : nat) :
  forall (i : nat) (buffer : vector),
    attempt_buffer i buffer ->
    retried_from k i j ->
    (attempt_size (i + j) <= vector_max_size)%N ->
    exists buffer',
      attempt_buffer (i + j) buffer'
      /\ (j = 0%nat -> buffer' = buffer)
      /\ forall fuel,
           brand_loop (j + fuel) k buffer
           = after (asked i j) (brand_loop fuel k buffer').
Proof.
  induction j as [|j IH]; intros i buffer Hbuffer Hfrom Hfit.
  - exists buffer. rewrite Nat.add_0_r. split; [exact Hbuffer |].
    split; [reflexivity |]. intros fuel. now rewrite after_nil.
  - apply retried_from_S in Hfrom as [[Hi Hm] Hfrom].
    rewrite Nat.add_succ_r in Hfit |- *.
    assert (Hnext : (attempt_size (S i) <= vector_max_size)%N).
    { pose proof (attempt_size_mono (S i) (S (i + j)) ltac:(lia)). lia. }
    assert (Hthis : (attempt_size i <= vector_max_size)%N).
    { pose proof (attempt_size_mono i (S i) ltac:(lia)). lia. }
    assert (Hstep : brand_iteration k buffer
                    = Retry (doubled (str_data (brand_reply k i)) buffer)).
    { rewrite (attempt_iteration i) by assumption.
      rewrite (proj2 (overflow_insufficient i Hi)) by auto.
      reply_kind (brand_reply k i) Hs Hi' Hr. now rewrite Hs, Hi. }
    pose proof (doubled_attempt_buffer i (str_data (brand_reply k i)) buffer
                  Hbuffer) as Hdoubled.
    destruct (IH (S i) _ Hdoubled Hfrom Hfit) as (b' & Hb' & _ & Hloop).
    exists b'. split; [exact Hb' |]. split; [discriminate |]. intros fuel.
    change (S j + fuel)%nat with (S (j + fuel)).
    destruct Hbuffer as (Hsize & _).
    now rewrite brand_loop_S, Hstep, Hloop, after_after, Hsize.
Qed.

(** A pass that ends the loop. *)
Lemma brand_loop_stops (fuel : nat) (buffer : vector) (e : loop_exit) :
  stops k buffer e ->
  brand_loop (S fuel) k buffer
  = Some ([Call "machdep.cpu.brand_string" (vsize buffer)], e).
Proof.
  unfold stops. rewrite brand_loop_S.
  destruct (brand_iteration k buffer); [contradiction | congruence..].
Qed.

(** A pass ends the loop unless the call reports the insufficient-buffer
    condition and [resize] does not throw; the way it ends is [exit_at]. *)
Lemma stops_exit (j : nat) (buffer : vector) (e : loop_exit) :
  attempt_buffer j buffer ->
  (attempt_size j <= vector_max_size)%N ->
  stops k buffer e
  <-> e = exit_at k j buffer
      /\ (overflow k (attempt_size j) = None ->
          insufficient (brand_reply k j) = false).
Proof.
  intros Hbuffer Hfit. unfold stops, exit_at.
  rewrite (attempt_iteration j) by assumption.
  destruct (overflow k (attempt_size j)) as [x|].
  - split; [intros ->; split; [reflexivity | discriminate] | now intros [-> _]].
  - reply_kind (brand_reply k j) Hs Hi Hr; rewrite Hs, ?Hi.
    + split; [intros ->; auto | now intros [-> _]].
    + split; [contradiction | intros [_ H]; specialize (H eq_refl); congruence].
    + split; [intros ->; auto | now intros [-> _]].
Qed.

(** The [j]-th attempt, reached through [j] retries, ends the loop. *)
Lemma brand_loop_stops_at (j : nat) :
  retried k j = true ->
  grown k j = true ->
  (attempt_size j <= vector_max_size)%N ->
  exists buffer,
    attempt_buffer j buffer
    /\ (j = 0%nat -> buffer = initial_buffer)
    /\ forall fuel e,
         (j < fuel)%nat ->
         stops k buffer e ->
         brand_loop fuel k initial_buffer = Some (asked 0 (S j), e).
Proof.
  intros Hretried Hgrown Hfit.
  pose proof (proj1 (retried_from_spec j) (conj Hretried Hgrown)) as Hfrom.
  destruct (brand_loop_retries j 0 initial_buffer)
    as (b & Hb & Hfirst & Hloop);
    [apply initial_attempt_buffer | assumption.. |].
  exists b. split; [exact Hb |]. split; [exact Hfirst |].
  intros fuel e Hfuel Hstop.
  replace fuel with (j + S (fuel - S j))%nat by lia.
  destruct Hb as (Hsize & _).
  rewrite Hloop, (brand_loop_stops _ _ _ Hstop), asked_S, Hsize. reflexivity.
Qed.

(** And ends it the way [exit_at] tells. *)
Lemma brand_loop_at (j : nat) :
  retried k j = true ->
  grown k j = true ->
  (attempt_size j <= vector_max_size)%N ->
  (overflow k (attempt_size j) = None ->
   insufficient (brand_reply k j) = false) ->
  exists buffer,
    attempt_buffer j buffer
    /\ (j = 0%nat -> buffer = initial_buffer)
    /\ forall fuel,
         (j < fuel)%nat ->
         brand_loop fuel k initial_buffer
         = Some (asked 0 (S j), exit_at k j buffer).
Proof.
  intros Hretried Hgrown Hfit Hlast.
  destruct (brand_loop_stops_at j Hretried Hgrown Hfit)
    as (b & Hb & Hfirst & Hloop).
  exists b. split; [exact Hb |]. split; [exact Hfirst |].
  intros fuel Hfuel. apply Hloop; [assumption |].
  apply (stops_exit j); auto.
Qed.

(** How a run of the loop came about: the calls it made went out with the
    sizes of the attempts one after the other, all but the last of them met
    the insufficient-buffer condition and had the buffer doubled, and the
    last ended the loop. *)
Lemma brand_loop_inv (fuel : nat) :
  forall (i : nat) (buffer : vector) (calls : list call) (e : loop_exit),
    attempt_buffer i buffer ->
    (attempt_size i <= vector_max_size)%N ->
    brand_loop fuel k buffer = Some (calls, e) ->
    exists j buffer',
      (j < fuel)%nat
      /\ calls = asked i (S j)
      /\ retried_from k i j
      /\ attempt_buffer (i + j) buffer'
      /\ (attempt_size (i + j) <= vector_max_size)%N
      /\ stops k buffer' e.
Proof.
  induction fuel as [|fuel IH]; intros i buffer calls e Hbuffer Hfit;
    [discriminate |].
  assert (Hsize : vsize buffer = attempt_size i) by apply Hbuffer.
  assert (Hhere : forall e', stops k buffer e' ->
            Some ([Call "machdep.cpu.brand_string" (vsize buffer)], e')
            = Some (calls, e) ->
            exists j buffer',
              (j < S fuel)%nat
              /\ calls = asked i (S j)
              /\ retried_from k i j
              /\ attempt_buffer (i + j) buffer'
              /\ (attempt_size (i + j) <= vector_max_size)%N
              /\ stops k buffer' e).
  { intros e' Hstop [= <- <-]. exists 0%nat, buffer.
    rewrite Nat.add_0_r, Hsize.
    split; [lia |]. split; [reflexivity |].
    split; [intros d Hd; lia |]. auto. }
  rewrite brand_loop_S.
  destruct (brand_iteration k buffer) as [b|b| |x] eqn:Hstep.
  - rewrite (attempt_iteration i) in Hstep by assumption.
    destruct (overflow k (attempt_size i)) as [x|] eqn:Hover; [discriminate |].
    reply_kind (brand_reply k i) Hs Hi Hr;
      rewrite Hs, ?Hi in Hstep; try discriminate.
    injection Hstep as <-.
    apply (overflow_insufficient i Hi) in Hover as [Hnext Hm].
    pose proof (doubled_attempt_buffer i (str_data (brand_reply k i)) buffer
                  Hbuffer) as Hdoubled.
    destruct (brand_loop fuel k _) as [[calls' e']|] eqn:Hrest; [| discriminate].
    simpl. intros [= <- <-].
    destruct (IH (S i) _ calls' e' Hdoubled Hnext Hrest)
      as (j & b' & Hj & -> & Hfrom & Hb' & Hfit' & Hstop).
    exists (S j), b'. rewrite Nat.add_succ_r.
    split; [lia |]. split; [now rewrite Hsize |].
    split; [now apply retried_from_S |]. auto.
  - apply Hhere. unfold stops. now rewrite Hstep.
  - apply Hhere. unfold stops. now rewrite Hstep.
  - apply Hhere. unfold stops. now rewrite Hstep.
Qed.

(** More fuel does not change a run of the loop. *)
Lemma brand_loop_mono (fuel : nat) :
  forall (fuel' : nat) (buffer : vector) (run : list call * loop_exit),
    brand_loop fuel k buffer = Some run ->
    (fuel <= fuel')%nat ->
    brand_loop fuel' k buffer = Some run.
Proof.
  induction fuel as [|fuel IH]; intros fuel' buffer run; [discriminate |].
  destruct fuel' as [|fuel']; [lia |]. rewrite !brand_loop_S.
  destruct (brand_iteration k buffer) as [b| | |]; try (intros; assumption).
  destruct (brand_loop fuel k b) as [run'|] eqn:Hrest; [| discriminate].
  intros Hrun Hle. now rewrite (IH fuel' b run' Hrest) by lia.
Qed.

(** Among the first [n + 1] attempts there is one that is reached and,
    unless it is the last of them, is not followed by another. *)
Lemma last_attempt_within (n : nat) :
  exists j,
    (j <= n)%nat /\ retried k j = true /\ grown k j = true
    /\ ((j < n)%nat ->
        overflow k (attempt_size j) = None ->
        insufficient (brand_reply k j) = false).
Proof.
  induction n as [|n (j & Hj & Hretried & Hgrown & Hlast)].
  - exists 0%nat. split; [lia |]. split; [reflexivity |].
    split; [reflexivity |]. intros H. lia.
  - destruct (decide (j = n)) as [->|Hne].
    + destruct (insufficient (brand_reply k n)) eqn:Hi.
      * destruct (overflow k (attempt_size n)) as [x|] eqn:Hover.
        -- exists n. split; [lia |]. split; [assumption |].
           split; [assumption |]. intros _ H. congruence.
        -- apply (overflow_insufficient n Hi) in Hover as [_ Hm].
           exists (S n). rewrite retried_S, grown_S, Hretried, Hgrown, Hi, Hm.
           split; [lia |]. split; [reflexivity |].
           split; [reflexivity |]. intros H. lia.
      * exists n. split; [lia |]. split; [assumption |].
        split; [assumption |]. auto.
    + exists j. split; [lia |]. split; [assumption |].
      split; [assumption |]. intros _. apply Hlast. lia.
Qed.

(** The loop has a last attempt among the first 55: after the 55th the
    doubled size is beyond the largest vector. *)
Lemma last_attempt :
  exists j,
    (j < 55)%nat /\ retried k j = true /\ grown k j = true
    /\ (overflow k (attempt_size j) = None ->
        insufficient (brand_reply k j) = false).
Proof.
  destruct (last_attempt_within 54) as (j & Hj & Hretried & Hgrown & Hlast).
  exists j. split; [lia |]. split; [assumption |]. split; [assumption |].
  destruct (decide (j = 54%nat)) as [->|Hne]; [| apply Hlast; lia].
  intros Hover. destruct (insufficient (brand_reply k 54)) eqn:Hi;
    [| reflexivity].
  apply (overflow_insufficient 54 Hi) in Hover as [Hfit _].
  pose proof attempt_size_55. rewrite attempt_size_S in Hfit. lia.
Qed.

(** With fuel for 55 passes the loop always comes to an end. *)
Lemma brand_loop_end (fuel : nat) :
  (55 <= fuel)%nat ->
  exists j buffer,
    (j < 55)%nat /\ retried k j = true /\ grown k j = true
    /\ attempt_buffer j buffer
    /\ (overflow k (attempt_size j) = None ->
        insufficient (brand_reply k j) = false)
    /\ brand_loop fuel k initial_buffer
       = Some (asked 0 (S j), exit_at k j buffer).
Proof.
  intros Hfuel.
  destruct last_attempt as (j & Hj & Hretried & Hgrown & Hlast).
  destruct (brand_loop_at j Hretried Hgrown (attempt_size_fits j Hj) Hlast)
    as (b & Hb & _ & Hloop).
  exists j, b. split; [assumption |]. split; [assumption |].
  split; [assumption |]. split; [assumption |]. split; [assumption |].
  apply Hloop. lia.
Qed.

(** A run of the loop, whatever the fuel, is the one that ends with the
    last attempt. *)
Lemma brand_loop_run (fuel : nat) (calls : list call) (e : loop_exit) :
  brand_loop fuel k initial_buffer = Some (calls, e) ->
  exists j buffer,
    (j < fuel)%nat /\ (j < 55)%nat
    /\ retried k j = true /\ grown k j = true
    /\ attempt_buffer j buffer
    /\ (overflow k (attempt_size j) = None ->
        insufficient (brand_reply k j) = false)
    /\ calls = asked 0 (S j)
    /\ e = exit_at k j buffer.
Proof.
  intros Hrun.
  destruct (brand_loop_inv fuel 0 initial_buffer calls e
              initial_attempt_buffer (attempt_size_fits 0 ltac:(lia)) Hrun)
    as (j & b & Hj & -> & Hfrom & Hb & Hfit & Hstop).
  simpl in Hb, Hfit.
  apply retried_from_spec in Hfrom as [Hretried Hgrown].
  apply (stops_exit j b e Hb Hfit) in Hstop as [-> Hlast].
  exists j, b. split; [assumption |].
  split; [now apply attempt_size_fits_inv |]. auto 10.
Qed.

End Loop.

(** ** Reading the brand string *)

Lemma c_str_terminated (s : string) (rest : list ascii) :
  NUL ∉ list_ascii_of_string s ->
  c_str (list_ascii_of_string s ++ NUL :: rest) = s.
Proof.
  induction s as [|c s IH]; simpl; intros Hnul; [reflexivity |].
  apply not_elem_of_cons in Hnul as [Hc Hs].
  destruct (Ascii.eqb_spec c NUL) as [->|_]; [congruence |].
  now rewrite IH.
Qed.


Lemma length_list_ascii (s : string) :
  length (list_ascii_of_string s) = String.length s.
Proof. induction s as [|c s IH]; simpl; congruence. Qed.

Lemma take_past_NUL (n : nat) (l y : list ascii) :
  (length l < n)%nat ->
  take n (l ++ NUL :: y) = l ++ NUL :: take (n - S (length l)) y.
Proof.
  intros Hlt. rewrite take_app_ge by lia.
  replace (n - length l)%nat with (S (n - S (length l))) by lia.
  reflexivity.
Qed.


(** The memory of the buffer after a successful call: what the kernel
    copied, then what the buffer held behind it, then, if the kernel filled
    the buffer, a zero. *)
Lemma terminated_storage (data : list ascii) (buffer : vector) :
  full buffer ->
  storage (terminated data buffer)
  = take (vlen buffer) data
      ++ drop (length data) (storage buffer)
      ++ (if (vlen buffer <=? length data)%nat then [NUL] else []).
Proof.
  intros Hfull. unfold terminated, copyout, full in *; simpl.
  rewrite length_take, N2Nat.inj_add, Nat2N.id.
  change (N.to_nat 1) with 1%nat.
  destruct (Nat.leb_spec (vlen buffer) (length data)) as [Hle|Hgt].
  - rewrite Nat.min_l by lia.
    destruct (Nat.leb_spec (vlen buffer + 1) (vlen buffer)) as [|_]; [lia |].
    simpl. now rewrite !drop_ge, <- app_assoc by lia.
  - rewrite Nat.min_r by lia.
    destruct (Nat.leb_spec (length data + 1) (vlen buffer)) as [_|]; [| lia].
    simpl. now rewrite app_nil_r.
Qed.

(** A successful call that delivers a zero-terminated string which fits the
    buffer leaves that string to be read, whatever the buffer held before. *)
Lemma c_str_terminated_buffer (s : string) (rest : list ascii)
  (buffer : vector) :
  NUL ∉ list_ascii_of_string s ->
  (String.length s <= vlen buffer)%nat ->
  full buffer ->
  c_str (storage (terminated (list_ascii_of_string s ++ NUL :: rest) buffer))
  = s.
Proof.
  intros Hnul Hlen Hfull. rewrite terminated_storage by assumption.
  rewrite <- (length_list_ascii s) in Hlen.
  set (l := list_ascii_of_string s) in *.
  destruct (decide (length l = vlen buffer)) as [Heq|Hne].
  - rewrite <- Heq, take_app_length.
    rewrite drop_ge by (unfold full in Hfull; rewrite length_app; simpl; lia).
    destruct (Nat.leb_spec (length l) (length (l ++ NUL :: rest))) as [_|Hgt];
      [| rewrite length_app in Hgt; simpl in Hgt; lia].
    now apply c_str_terminated.
  - rewrite take_past_NUL by lia.
    rewrite <- app_assoc; simpl. now apply c_str_terminated.
Qed.


(** And when the copy has no zero and does not fill the buffer, the string
    read runs on into what the buffer held behind it. *)
Lemma terminated_storage_stale (data : list ascii) (buffer : vector) :
  full buffer ->
  (length data < vlen buffer)%nat ->
  storage (terminated data buffer)
  = data ++ drop (length data) (storage buffer).
Proof.
  intros Hfull Hlt. rewrite terminated_storage by assumption.
  destruct (Nat.leb_spec (vlen buffer) (length data)) as [|_]; [lia |].
  now rewrite take_ge, app_nil_r by lia.
Qed.


(** ** The record *)

Lemma add_models_replicate (n : nat) (description : string) (l : list value) :
  add_models n description l = l ++ replicate n (string_value description).
Proof.
  revert l. induction n as [|n IH]; intros l; simpl.
  - now rewrite app_nil_r.
  - rewrite IH. unfold array_add. now rewrite <- app_assoc.
Qed.

Lemma map_is_empty_spec (m : fields) : map_is_empty m = true <-> m = ∅.
Proof.
  unfold map_is_empty. rewrite Nat.eqb_eq. apply map_size_empty_iff.
Qed.

(** Unfolds [counts] along the outcomes of the two integer queries. *)
Ltac by_queries k :=
  unfold counts, map_add;
  destruct (int_rc (hw_logicalcpu_max k) =? 0),
    (int_rc (hw_physicalcpu_max k) =? 0); simpl.

Lemma counts_count (k : kernel) :
  counts k !! "count"
  = if int_rc (hw_logicalcpu_max k) =? 0
    then Some (integer_value (logical_count k)) else None.
Proof. by_queries k; now simplify_map_eq. Qed.

Lemma counts_physicalcount (k : kernel) :
  counts k !! "physicalcount"
  = if int_rc (hw_physicalcpu_max k) =? 0
    then Some (integer_value (physical_count k)) else None.
Proof. by_queries k; now simplify_map_eq. Qed.

Lemma counts_other (k : kernel) (name : string) :
  name <> "count" -> name <> "physicalcount" -> counts k !! name = None.
Proof. intros H1 H2. by_queries k; now simplify_map_eq. Qed.

Lemma counts_empty (k : kernel) :
  int_rc (hw_logicalcpu_max k) <> 0 ->
  int_rc (hw_physicalcpu_max k) <> 0 ->
  counts k = ∅.
Proof.
  intros H1%Z.eqb_neq H2%Z.eqb_neq. unfold counts. now rewrite H1, H2.
Qed.

Lemma counts_subseteq (k : kernel) (s : string) : counts k ⊆ full_record k s.
Proof.
  apply map_subseteq_spec. intros name v. unfold full_record.
  destruct (decide (name = "count")) as [->|Hc].
  { rewrite counts_count. destruct (_ =? 0); [| discriminate].
    intros [= <-]. now simplify_map_eq. }
  destruct (decide (name = "physicalcount")) as [->|Hp].
  { rewrite counts_physicalcount. destruct (_ =? 0); [| discriminate].
    intros [= <-]. now simplify_map_eq. }
  now rewrite counts_other.
Qed.

Lemma attach_models_nil (m : fields) : attach_models [] m = m.
Proof. reflexivity. Qed.

Lemma attach_models_lookup (l : list value) (m : fields) (name : string) :
  name <> "models" -> attach_models l m !! name = m !! name.
Proof.
  intros Hne. unfold attach_models, map_add.
  destruct (0 <? length l)%nat; [| reflexivity].
  now rewrite lookup_insert_ne.
Qed.

Lemma attach_models_models (l : list value) (m : fields) :
  l <> [] -> attach_models l m = <["models" := array_value l]> m.
Proof.
  intros Hne. unfold attach_models, map_add.
  destruct l; [contradiction | reflexivity].
Qed.

Lemma attach_models_subseteq (k : kernel) (s : string) :
  attach_models (models k s) (counts k) ⊆ full_record k s.
Proof.
  unfold attach_models, map_add.
  destruct (0 <? length (models k s))%nat; [| apply counts_subseteq].
  apply insert_subseteq_l; [| apply counts_subseteq].
  unfold full_record. now simplify_map_eq.
Qed.

(** The end of the routine adds the record exactly when it has a field. *)
Lemma assemble_cases (m : fields) (l : list value) (facts : collection) :
  attach_models l m = ∅ /\ untouched facts (assemble m l facts)
  \/ attach_models l m <> ∅
     /\ added (attach_models l m) facts (assemble m l facts).
Proof.
  unfold assemble, untouched, added.
  destruct (map_is_empty (attach_models l m)) eqn:Hempty; simpl.
  - left. now apply map_is_empty_spec in Hempty.
  - right. split; [| reflexivity].
    intros Heq%map_is_empty_spec. congruence.
Qed.


Lemma lacks_untouched (name : string) (facts : collection) :
  lacks name facts facts.
Proof. now left. Qed.

Lemma lacks_assemble (name : string) (k : kernel) (l : list value)
  (facts : collection) :
  name <> "models" ->
  counts k !! name = None ->
  lacks name facts (assemble (counts k) l facts).
Proof.
  intros Hne Hnone.
  destruct (assemble_cases (counts k) l facts) as [[_ H]|[_ H]].
  - now left.
  - right. eexists. split; [exact H |].
    now rewrite attach_models_lookup.
Qed.

Lemma lacks_models_nil (k : kernel) (facts : collection) :
  lacks "models" facts (assemble (counts k) [] facts).
Proof.
  destruct (assemble_cases (counts k) [] facts) as [[_ H]|[_ H]].
  - now left.
  - right. eexists. split; [exact H |].
    rewrite attach_models_nil. now apply counts_other.
Qed.

#[local] Hint Resolve lacks_untouched lacks_assemble lacks_models_nil : facter.

(** ** The routine as a whole *)

Lemma resolve_unfold (fuel : nat) (k : kernel) (facts : collection) :
  resolve_structured_processors fuel k facts
  = if 0 <? logical_count k then
      match brand_loop fuel k initial_buffer with
      | None => None
      | Some (calls, Failed e) =>
          Some (count_calls ++ calls, Raised e facts)
      | Some (calls, Abandoned) =>
          Some (count_calls ++ calls, Returned facts)
      | Some (calls, Found buffer) =>
          Some (count_calls ++ calls,
                Returned
                  (assemble (counts k) (models k (c_str (storage buffer)))
                     facts))
      end
    else Some (count_calls, Returned (assemble (counts k) [] facts)).
Proof.
  unfold resolve_structured_processors, counts, models, logical_count,
    physical_count, sysctl_int; simpl.
  destruct (0 <? _); [| reflexivity].
  destruct (brand_loop fuel k _) as [[calls [b| |e]]|]; try reflexivity.
  now rewrite add_models_replicate.
Qed.

(** When the logical count is not positive the loop is not entered: the
    routine ends without a single pass through it, after the two calls for
    the counts. *)
Lemma resolve_skips_brand (fuel : nat) (k : kernel) (facts : collection) :
  logical_count k <= 0 ->
  resolve_structured_processors fuel k facts
  = Some (count_calls, Returned (assemble (counts k) [] facts)).
Proof.
  intros Hle. rewrite resolve_unfold.
  now destruct (Z.ltb_spec 0 (logical_count k)); [lia |].
Qed.

(** And whatever the brand string query would have replied does not
    matter. *)
Lemma resolve_ignores_brand (fuel : nat) (k : kernel)
  (brand : N -> string_reply) (facts : collection) :
  logical_count k <= 0 ->
  resolve_structured_processors fuel (with_brand k brand) facts
  = resolve_structured_processors fuel k facts.
Proof.
  intros Hle. now rewrite !resolve_skips_brand by assumption.
Qed.

(** When the logical count is positive, a run of the loop decides how the
    routine ends. *)
Lemma resolve_loop (fuel : nat) (k : kernel) (facts : collection)
  (j : nat) (buffer : vector) :
  0 < logical_count k ->
  brand_loop fuel k initial_buffer = Some (asked 0 (S j), exit_at k j buffer) ->
  resolve_structured_processors fuel k facts
  = Some (count_calls ++ asked 0 (S j), outcome_at k j buffer facts).
Proof.
  intros Hpos%Z.ltb_lt Hloop. rewrite resolve_unfold, Hpos, Hloop.
  unfold outcome_at. now destruct (exit_at k j buffer).
Qed.

(** The routine when the [j]-th attempt is the last. *)
Lemma resolve_at (k : kernel) (facts : collection) (j fuel : nat) :
  0 < logical_count k ->
  retried k j = true ->
  grown k j = true ->
  (attempt_size j <= vector_max_size)%N ->
  (overflow k (attempt_size j) = None ->
   insufficient (brand_reply k j) = false) ->
  (j < fuel)%nat ->
  exists buffer,
    attempt_buffer j buffer
    /\ (j = 0%nat -> buffer = initial_buffer)
    /\ resolve_structured_processors fuel k facts
       = Some (count_calls ++ asked 0 (S j), outcome_at k j buffer facts).
Proof.
  intros Hpos Hretried Hgrown Hfit Hlast Hfuel.
  destruct (brand_loop_at k j Hretried Hgrown Hfit Hlast)
    as (b & Hb & Hfirst & Hloop).
  exists b. split; [exact Hb |]. split; [exact Hfirst |].
  apply resolve_loop; auto.
Qed.

(** How the routine ends, with fuel for 55 passes through the loop. *)
Lemma resolve_end (fuel : nat) (k : kernel) (facts : collection) :
  (55 <= fuel)%nat ->
  logical_count k <= 0
  /\ resolve_structured_processors fuel k facts
     = Some (count_calls, Returned (assemble (counts k) [] facts))
  \/ 0 < logical_count k
     /\ exists j buffer,
          (j < 55)%nat /\ retried k j = true /\ grown k j = true
          /\ attempt_buffer j buffer
          /\ (overflow k (attempt_size j) = None ->
              insufficient (brand_reply k j) = false)
          /\ resolve_structured_processors fuel k facts
             = Some (count_calls ++ asked 0 (S j),
                     outcome_at k j buffer facts).
Proof.
  intros Hfuel.
  destruct (Z.ltb_spec 0 (logical_count k)) as [Hpos|Hle].
  - right. split; [assumption |].
    destruct (brand_loop_end k fuel Hfuel)
      as (j & b & Hj & Hretried & Hgrown & Hb & Hlast & Hloop).
    exists j, b. split; [assumption |]. split; [assumption |].
    split; [assumption |]. split; [assumption |]. split; [assumption |].
    now apply resolve_loop.
  - left. split; [assumption |]. now apply resolve_skips_brand.
Qed.

(** The three ways in which the last attempt ends the routine. *)
Lemma outcome_at_cases (k : kernel) (j : nat) (buffer : vector)
  (facts : collection) :
  (overflow k (attempt_size j) = None ->
   insufficient (brand_reply k j) = false) ->
  (exists e, overflow k (attempt_size j) = Some e
             /\ outcome_at k j buffer facts = Raised e facts)
  \/ (overflow k (attempt_size j) = None
      /\ refused (brand_reply k j) = true
      /\ outcome_at k j buffer facts = Returned facts)
  \/ (overflow k (attempt_size j) = None
      /\ succeeded (brand_reply k j) = true
      /\ outcome_at k j buffer facts
         = Returned
             (assemble (counts k)
                (models k
                   (c_str (storage (terminated (str_data (brand_reply k j))
                                      buffer))))
                facts)).
Proof.
  intros Hlast. unfold outcome_at, exit_at.
  destruct (overflow k (attempt_size j)) as [e|]; [left; eauto |].
  specialize (Hlast eq_refl).
  reply_kind (brand_reply k j) Hs Hi Hr; rewrite Hs; auto.
Qed.

(** Whichever way the routine ends, the collection is as it was or as the
    end of the routine makes it. *)
Lemma final_outcome_at (k : kernel) (j : nat) (buffer : vector)
  (facts : collection) :
  final (outcome_at k j buffer facts) = facts
  \/ exists s,
       outcome_at k j buffer facts
       = Returned (assemble (counts k) (models k s) facts).
Proof.
  unfold outcome_at. destruct (exit_at k j buffer); simpl; eauto.
Qed.

Lemma models_nonempty (k : kernel) (s : string) :
  0 < logical_count k -> models k s <> [].
Proof.
  intros Hpos. unfold models.
  destruct (Z.to_nat (logical_count k)) eqn:E; [lia | discriminate].
Qed.

Lemma assemble_models (m : fields) (l : list value) (facts : collection) :
  l <> [] ->
  assemble m l facts
  = collection_add fact_processors
      (map_value (<["models" := array_value l]> m)) facts.
Proof.
  intros Hl.
  destruct (assemble_cases m l facts) as [[Hempty _]|[_ H]].
  - rewrite attach_models_models in Hempty by assumption.
    now apply insert_non_empty in Hempty.
  - rewrite H. now rewrite attach_models_models.
Qed.

Lemma assemble_eq (m : fields) (l : list value) (facts : collection) :
  assemble m l facts
  = if map_is_empty (attach_models l m) then facts
    else collection_add fact_processors (map_value (attach_models l m)) facts.
Proof. unfold assemble. now destruct (map_is_empty _). Qed.

Lemma attach_models_present (k : kernel) (s : string) :
  0 < logical_count k ->
  attach_models (models k s) (counts k) !! "models"
  = Some (array_value (models k s)).
Proof.
  intros Hpos. rewrite attach_models_models by now apply models_nonempty.
  apply lookup_insert_eq.
Qed.

(** The record that goes out holds nothing but what was queried. *)
Lemma assemble_full_record (k : kernel) (l : list value) (s : string)
  (facts : collection) :
  l = [] \/ l = models k s ->
  untouched facts (assemble (counts k) l facts)
  \/ exists r s',
       added r facts (assemble (counts k) l facts) /\ r ⊆ full_record k s'.
Proof.
  intros Hl. destruct (assemble_cases (counts k) l facts) as [[_ H]|[_ H]];
    [now left |].
  right. destruct Hl as [-> | ->].
  - exists (attach_models [] (counts k)), EmptyString.
    split; [exact H |]. apply counts_subseteq.
  - eexists _, s. split; [exact H |]. apply attach_models_subseteq.
Qed.

(** ** Replies of the documented string query *)

Lemma sysctl_string_data (s : string) (n : N) :
  str_data (sysctl_string s n) = list_ascii_of_string s ++ [NUL].
Proof. unfold sysctl_string. now destruct (_ <=? n)%N. Qed.

Lemma sysctl_string_refused (s : string) (n : N) :
  refused (sysctl_string s n) = false.
Proof. unfold sysctl_string. now destruct (_ <=? n)%N. Qed.

Lemma sysctl_string_succeeded (s : string) (n : N) :
  succeeded (sysctl_string s n) = true
  <-> (N.of_nat (String.length s) + 1 <= n)%N.
Proof.
  unfold sysctl_string, succeeded.
  rewrite length_app, length_list_ascii, Nat2N.inj_add.
  change (N.of_nat (length [NUL])) with 1%N.
  destruct (N.leb_spec (N.of_nat (String.length s) + 1) n) as [Hle|Hgt];
    simpl; split; intros H; try reflexivity; try discriminate;
    try assumption; exfalso; lia.
Qed.

Lemma sysctl_string_insufficient (s : string) (n : N) :
  insufficient (sysctl_string s n) = true
  <-> (n < N.of_nat (String.length s) + 1)%N.
Proof.
  pose proof (sysctl_string_succeeded s n) as Hs.
  pose proof (sysctl_string_refused s n) as Hr.
  split.
  - intros Hi.
    destruct (N.le_gt_cases (N.of_nat (String.length s) + 1) n) as [Hle|Hgt];
      [| assumption].
    apply Hs in Hle. reply_kind (sysctl_string s n) Hs' Hi' Hr'.
  - intros Hlt. reply_kind (sysctl_string s n) Hs' Hi Hr'.
    apply Hs in Hs'. exfalso. lia.
Qed.

(** The calls of a run. *)
Lemma resolve_calls (k : kernel) (facts : collection) (fuel : nat) :
  (55 <= fuel)%nat ->
  exists o m,
    resolve_structured_processors fuel k facts
    = Some (count_calls ++ asked 0 m, o)
    /\ (m <= 55)%nat
    /\ (m = 0%nat <-> logical_count k <= 0).
Proof.
  intros Hfuel.
  destruct (resolve_end fuel k facts Hfuel)
    as [[Hle ->] | [Hpos (j & b & Hj & _ & _ & _ & _ & ->)]].
  - exists (Returned (assemble (counts k) [] facts)), 0%nat.
    rewrite app_nil_r. repeat split; lia.
  - eexists _, (S j). repeat split; lia.
Qed.

(** ** The starved loop *)

(** A kernel that reports the insufficient-buffer condition whatever the
    size makes the loop grow the buffer until [resize] throws.  On a
    machine with memory for 2^33 characters that is [std::bad_alloc] after
    26 calls, on a machine whose memory never runs out it is
    [std::length_error] after 55 calls. *)
Lemma starved_loop_fails (fuel : nat) :
  (26 <= fuel)%nat ->
  brand_loop fuel starved_kernel initial_buffer
  = Some (asked 0 26, Failed bad_alloc).
Proof.
  intros Hfuel.
  destruct (brand_loop_at starved_kernel 25) as (b & _ & _ & Hloop);
    [reflexivity | reflexivity | auto with facter lia | discriminate |].
  now rewrite Hloop by lia.
Qed.

Lemma starved_boundless_loop_fails (fuel : nat) :
  (55 <= fuel)%nat ->
  brand_loop fuel starved_boundless_kernel initial_buffer
  = Some (asked 0 55, Failed length_error).
Proof.
  intros Hfuel.
  destruct (brand_loop_at starved_boundless_kernel 54) as (b & _ & _ & Hloop);
    [reflexivity | reflexivity | auto with facter lia | discriminate |].
  now rewrite Hloop by lia.
Qed.

(** * The claims *)

(** C1.  When the brand string query fails with an error other than the
    insufficient-buffer condition (after any number of retries), the routine
    returns at once, that call being its last, and the collection is as it
    was: no "processors" record is added, whatever the two count queries had
    delivered. *)
Theorem refused_brand_discards_record (k : kernel) (facts : collection)
  (j fuel : nat) :
  0 < logical_count k ->
  retried k j = true ->
  grown k j = true ->
  (attempt_size j <= vector_max_size)%N ->
  refused (brand_reply k j) = true ->
  (j < fuel)%nat ->
  resolve_structured_processors fuel k facts
  = Some (count_calls ++ asked 0 (S j), Returned facts).
Proof.
  intros Hpos Hretried Hgrown Hfit Hno Hfuel.
  assert (Hlast : overflow k (attempt_size j) = None ->
                  insufficient (brand_reply k j) = false)
    by (intros _; reply_kind (brand_reply k j) Hs Hi Hr).
  destruct (resolve_at k facts j fuel Hpos Hretried Hgrown Hfit Hlast Hfuel)
    as (b & _ & _ & ->).
  destruct (outcome_at_cases k j b facts Hlast)
    as [(e & He & _) | [(_ & _ & ->) | (_ & Hs & _)]].
  - rewrite overflow_refused in He by assumption. discriminate.
  - reflexivity.
  - reply_kind (brand_reply k j) Hs' Hi Hr.
Qed.

Lemma refused_brand_discards_record_witness :
  int_rc (hw_logicalcpu_max refusing_kernel) = 0
  /\ int_rc (hw_physicalcpu_max refusing_kernel) = 0
  /\ resolve_structured_processors 1 refusing_kernel ∅
     = Some (count_calls ++ asked 0 1, Returned ∅).
Proof.
  split; [reflexivity |]. split; [reflexivity |].
  apply (refused_brand_discards_record refusing_kernel ∅ 0 1).
  - reflexivity.
  - reflexivity.
  - reflexivity.
  - vm_compute. discriminate.
  - reflexivity.
  - lia.
Defined.

(** C2.  With a logical count [n > 0] and a brand string query that
    succeeds returning the string [s], the record goes out with a [models]
    field of exactly [n] entries, each of them [s].  (A reply that fills
    the buffer needs memory for one more character.) *)
Theorem models_replicate_brand (k : kernel) (facts : collection)
  (n : Z) (s : string) (rest : list ascii) (j fuel : nat) :
  logical_count k = n ->
  0 < n ->
  retried k j = true ->
  grown k j = true ->
  (attempt_size j <= vector_max_size)%N ->
  succeeded (brand_reply k j) = true ->
  str_data (brand_reply k j) = list_ascii_of_string s ++ NUL :: rest ->
  NUL ∉ list_ascii_of_string s ->
  (N.of_nat (String.length s) <= attempt_size j)%N ->
  (N.of_nat (length (str_data (brand_reply k j))) < attempt_size j)%N
  \/ memory k (attempt_size j + 1) = true ->
  (j < fuel)%nat ->
  exists r l,
    resolve_structured_processors fuel k facts
    = Some (count_calls ++ asked 0 (S j),
            Returned (collection_add fact_processors (map_value r) facts))
    /\ r !! "models" = Some (array_value l)
    /\ length l = Z.to_nat n
    /\ l = replicate (Z.to_nat n) (string_value s).
Proof.
  intros Hn Hpos Hretried Hgrown Hfit Hok Hdata Hnul Hlen Hroom Hfuel.
  subst n.
  assert (Hlast : overflow k (attempt_size j) = None ->
                  insufficient (brand_reply k j) = false)
    by (intros _; reply_kind (brand_reply k j) Hs Hi Hr).
  pose proof (overflow_succeeded k j Hok Hfit Hroom) as Hover.
  destruct (resolve_at k facts j fuel Hpos Hretried Hgrown Hfit Hlast Hfuel)
    as (b & (Hsize & Hfull & _) & _ & ->).
  destruct (outcome_at_cases k j b facts Hlast)
    as [(e & He & _) | [(_ & Hr & _) | (_ & _ & ->)]];
    [congruence | reply_kind (brand_reply k j) Hs Hi Hr' |].
  rewrite Hdata, c_str_terminated_buffer;
    [| assumption | unfold vsize in Hsize; lia | assumption].
  rewrite assemble_models by now apply models_nonempty.
  eexists _, _. split; [reflexivity |].
  split; [apply lookup_insert_eq |].
  split; [apply length_replicate | reflexivity].
Qed.

Lemma models_replicate_brand_witness :
  exists r l,
    resolve_structured_processors 1 example_kernel ∅
    = Some (count_calls ++ asked 0 1,
            Returned (collection_add fact_processors (map_value r) ∅))
    /\ r !! "models" = Some (array_value l)
    /\ length l = 4%nat
    /\ l = [string_value "Example CPU"; string_value "Example CPU";
            string_value "Example CPU"; string_value "Example CPU"].
Proof.
  apply (models_replicate_brand example_kernel ∅ 4 "Example CPU" [] 0 1).
  - reflexivity.
  - reflexivity.
  - reflexivity.
  - reflexivity.
  - vm_compute. discriminate.
  - reflexivity.
  - reflexivity.
  - simpl. intros H.
    repeat (apply elem_of_cons in H as [H|H]; [discriminate H |]).
    now apply elem_of_nil in H.
  - vm_compute. discriminate.
  - left. vm_compute. reflexivity.
  - lia.
Defined.

(** C3, as stated, fails: on a kernel that reports the insufficient-buffer
    condition at every size the loop stops although no call succeeded and
    none failed with another error.  On a machine with memory for a buffer
    of 2^33 characters the 26th call is made with such a buffer, and the
    [resize] after it throws [std::bad_alloc]. *)
Lemma starved_loop_stops_by_exception :
  brand_loop 26 starved_kernel initial_buffer
  = Some (asked 0 26, Failed bad_alloc)
  /\ (forall n,
        succeeded (machdep_cpu_brand_string starved_kernel n) = false
        /\ refused (machdep_cpu_brand_string starved_kernel n) = false).
Proof.
  split; [apply starved_loop_fails; lia |].
  intros n. split; reflexivity.
Qed.

(** C3, amended.  The loop starts with a buffer of 256 characters.  A run
    of the loop makes its calls with buffers of 256, 512, ..., 256 * 2^j
    characters, one after the other; all calls but the last reported the
    insufficient-buffer condition and had the buffer doubled, and as long as
    calls do so and the doubled buffer is one a vector can have and gets its
    memory, the loop goes on.  The loop stops only on a call that succeeds,
    on a call that fails with another error, or by an exception of [resize]
    ([overflow] tells which: [std::length_error] beyond the largest vector,
    [std::bad_alloc] when the memory is not there); with fuel for 55 passes
    it is seen to stop. *)
Theorem retry_loop_doubles (k : kernel) :
  vsize initial_buffer = 256%N
  /\ (forall fuel, (55 <= fuel)%nat ->
        exists calls e, brand_loop fuel k initial_buffer = Some (calls, e))
  /\ forall fuel calls e,
       brand_loop fuel k initial_buffer = Some (calls, e) ->
       (exists j,
          (j < fuel)%nat
          /\ calls
             = (fun i => Call "machdep.cpu.brand_string" (256 * 2 ^ N.of_nat i))
                 <$> seq 0 (S j)
          /\ retried k j = true
          /\ grown k j = true
          /\ match e with
             | Found _ =>
                 succeeded (brand_reply k j) = true
                 /\ overflow k (256 * 2 ^ N.of_nat j) = None
             | Abandoned => refused (brand_reply k j) = true
             | Failed x => overflow k (256 * 2 ^ N.of_nat j) = Some x
             end)
       /\ (forall j,
             retried k (S j) = true ->
             grown k (S j) = true ->
             (256 * 2 ^ N.of_nat (S j) <= vector_max_size)%N ->
             (S j < length calls)%nat).
Proof.
  split; [reflexivity |]. split.
  { intros fuel Hfuel.
    destruct (brand_loop_end k fuel Hfuel) as (j & b & _ & _ & _ & _ & _ & ->).
    eauto. }
  intros fuel calls e Hrun.
  destruct (brand_loop_run k fuel calls e Hrun)
    as (j & b & Hj & Hj' & Hretried & Hgrown & Hb & Hlast & -> & ->).
  split.
  - exists j. split; [assumption |]. split; [reflexivity |].
    split; [assumption |]. split; [assumption |].
    fold (attempt_size j). unfold exit_at.
    destruct (overflow k (attempt_size j)) as [x|]; [reflexivity |].
    specialize (Hlast eq_refl).
    reply_kind (brand_reply k j) Hs Hi Hr; rewrite Hs; auto.
  - intros j' Hretried' Hgrown' Hfit'. rewrite length_asked.
    fold (attempt_size (S j')) in Hfit'.
    destruct (Nat.lt_ge_cases j' j) as [Hlt|Hge]; [lia |]. exfalso.
    pose proof (retried_lt k j (S j') ltac:(lia) Hretried') as Hi.
    pose proof (grown_lt k j (S j') ltac:(lia) Hgrown') as Hm.
    pose proof (attempt_size_mono (S j) (S j') ltac:(lia)) as Hmono.
    assert (Hover : overflow k (attempt_size j) = None).
    { apply overflow_insufficient; [assumption |]. split; [lia | assumption]. }
    specialize (Hlast Hover). congruence.
Qed.

(** C4.  With fuel for the whole loop the routine ends, and then: if the
    logical count query failed, the record that went out (if any) has no
    [count] field; if the physical count query failed, it has no
    [physicalcount] field.  Nothing is assumed about the other queries. *)
Theorem failed_query_leaves_no_field (k : kernel) (facts : collection)
  (fuel : nat) :
  (55 <= fuel)%nat ->
  exists calls o,
    resolve_structured_processors fuel k facts = Some (calls, o)
    /\ (int_rc (hw_logicalcpu_max k) <> 0 -> lacks "count" facts (final o))
    /\ (int_rc (hw_physicalcpu_max k) <> 0 ->
        lacks "physicalcount" facts (final o)).
Proof.
  intros Hfuel.
  assert (Hcount : int_rc (hw_logicalcpu_max k) <> 0 ->
                   counts k !! "count" = None).
  { intros H%Z.eqb_neq. now rewrite counts_count, H. }
  assert (Hphys : int_rc (hw_physicalcpu_max k) <> 0 ->
                  counts k !! "physicalcount" = None).
  { intros H%Z.eqb_neq. now rewrite counts_physicalcount, H. }
  destruct (resolve_end fuel k facts Hfuel)
    as [[_ ->] | [_ (j & b & _ & _ & _ & _ & _ & ->)]];
    eexists _, _; (split; [reflexivity |]).
  - simpl. split; intros H; auto with facter.
  - destruct (final_outcome_at k j b facts) as [-> | (s & ->)]; simpl;
      split; intros H; auto with facter.
Qed.

Lemma failed_query_leaves_no_field_witness :
  int_rc (hw_logicalcpu_max countless_kernel) <> 0
  /\ int_rc (hw_physicalcpu_max wordy_kernel) <> 0
  /\ (exists calls o,
        resolve_structured_processors 55 countless_kernel ∅ = Some (calls, o)
        /\ (int_rc (hw_logicalcpu_max countless_kernel) <> 0 ->
            lacks "count" ∅ (final o))
        /\ (int_rc (hw_physicalcpu_max countless_kernel) <> 0 ->
            lacks "physicalcount" ∅ (final o)))
  /\ (exists calls o,
        resolve_structured_processors 55 wordy_kernel ∅ = Some (calls, o)
        /\ (int_rc (hw_logicalcpu_max wordy_kernel) <> 0 ->
            lacks "count" ∅ (final o))
        /\ (int_rc (hw_physicalcpu_max wordy_kernel) <> 0 ->
            lacks "physicalcount" ∅ (final o))).
Proof.
  split; [discriminate |]. split; [discriminate |]. split.
  - apply (failed_query_leaves_no_field countless_kernel ∅ 55). lia.
  - apply (failed_query_leaves_no_field wordy_kernel ∅ 55). lia.
Defined.

(** C5.  When the logical count is 0 the brand string query is not made:
    the routine returns after the two calls for the counts, without a pass
    through the loop (no fuel is used); its result is the same whatever the
    brand string query would reply; and the record that goes out, if one
    does, has no [models] field. *)
Theorem zero_count_skips_brand_query (k : kernel) (facts : collection) :
  logical_count k = 0 ->
  (exists facts',
     resolve_structured_processors 0 k facts
     = Some ([Call "hw.logicalcpu_max" sizeof_int;
              Call "hw.physicalcpu_max" sizeof_int],
             Returned facts')
     /\ lacks "models" facts facts')
  /\ (forall fuel brand,
        resolve_structured_processors fuel (with_brand k brand) facts
        = resolve_structured_processors 0 k facts).
Proof.
  intros Hzero. split.
  - eexists. split; [apply resolve_skips_brand; lia |]. auto with facter.
  - intros fuel brand.
    rewrite resolve_ignores_brand by lia.
    now rewrite !resolve_skips_brand by lia.
Qed.

Lemma zero_count_skips_brand_query_witness :
  (exists facts',
     resolve_structured_processors 0 idle_kernel ∅
     = Some ([Call "hw.logicalcpu_max" sizeof_int;
              Call "hw.physicalcpu_max" sizeof_int],
             Returned facts')
     /\ lacks "models" ∅ facts')
  /\ (forall fuel brand,
        resolve_structured_processors fuel (with_brand idle_kernel brand) ∅
        = resolve_structured_processors 0 idle_kernel ∅).
Proof.
  apply (zero_count_skips_brand_query idle_kernel ∅). reflexivity.
Defined.

(** C6.  When both count queries fail and the brand string query is not
    made or never succeeds, the routine ends with the collection as it was:
    no "processors" record is added. *)
Theorem no_data_no_record (k : kernel) (facts : collection) (fuel : nat) :
  int_rc (hw_logicalcpu_max k) <> 0 ->
  int_rc (hw_physicalcpu_max k) <> 0 ->
  logical_count k <= 0
  \/ (forall n, succeeded (machdep_cpu_brand_string k n) = false) ->
  (55 <= fuel)%nat ->
  exists calls o,
    resolve_structured_processors fuel k facts = Some (calls, o)
    /\ final o = facts.
Proof.
  intros Hlogical Hphysical Hbrand Hfuel.
  pose proof (counts_empty k Hlogical Hphysical) as Hempty.
  destruct (resolve_end fuel k facts Hfuel)
    as [[_ ->] | [Hpos (j & b & _ & _ & _ & _ & Hlast & ->)]];
    eexists _, _; (split; [reflexivity |]).
  - simpl. now rewrite Hempty.
  - destruct (outcome_at_cases k j b facts Hlast)
      as [(e & _ & ->) | [(_ & _ & ->) | (_ & Hs & _)]];
      [reflexivity.. |].
    destruct Hbrand as [Hle | Hnever]; [lia |].
    unfold brand_reply in Hs. rewrite Hnever in Hs. discriminate.
Qed.

Lemma no_data_no_record_witness :
  exists calls o,
    resolve_structured_processors 55 mute_kernel ∅ = Some (calls, o)
    /\ final o = ∅.
Proof.
  apply (no_data_no_record mute_kernel ∅ 55).
  - discriminate.
  - discriminate.
  - right. intros n. reflexivity.
  - lia.
Defined.

(** C7, as stated, fails: the starved kernel makes the routine end with
    the exception of [resize], which nothing in the routine catches.  On a
    machine with memory for a buffer of 2^33 characters that is
    [std::bad_alloc], after 26 calls for the brand string. *)
Lemma starved_resolve_raises :
  resolve_structured_processors 26 starved_kernel ∅
  = Some (count_calls ++ asked 0 26, Raised bad_alloc ∅).
Proof.
  rewrite resolve_unfold. change (0 <? logical_count starved_kernel) with true.
  cbv iota. now rewrite starved_loop_fails.
Qed.

(** C7, amended.  The routine ends in one of two ways.  An exception
    leaves it exactly when the logical count is positive and the last pass
    through the loop ends in a [resize] that throws: [std::length_error]
    when the doubled size is beyond the largest vector, [std::bad_alloc]
    when the memory for the doubled buffer, or for one more character
    behind a reply that fills the buffer, is not there; the collection is
    then as it was.  In every other case, whichever queries failed, the
    routine returns, and the collection is as it was or has gained a
    "processors" record in which every field present holds the value
    queried: failures show as absent fields or an absent record only. *)
Theorem failures_only_drop_fields (k : kernel) (facts : collection)
  (fuel : nat) :
  (55 <= fuel)%nat ->
  exists calls o,
    resolve_structured_processors fuel k facts = Some (calls, o)
    /\ match o with
       | Raised e facts' =>
           facts' = facts
           /\ 0 < logical_count k
           /\ exists j,
                (j < 55)%nat
                /\ calls = count_calls ++ asked 0 (S j)
                /\ retried k j = true
                /\ grown k j = true
                /\ overflow k (attempt_size j) = Some e
       | Returned facts' =>
           (logical_count k <= 0
            \/ exists j,
                 (j < 55)%nat
                 /\ calls = count_calls ++ asked 0 (S j)
                 /\ retried k j = true
                 /\ grown k j = true
                 /\ insufficient (brand_reply k j) = false
                 /\ overflow k (attempt_size j) = None)
           /\ (untouched facts facts'
               \/ exists r s, added r facts facts' /\ r ⊆ full_record k s)
       end.
Proof.
  intros Hfuel.
  destruct (resolve_end fuel k facts Hfuel)
    as [[Hle ->] | [Hpos (j & b & Hj & Hretried & Hgrown & _ & Hlast & ->)]];
    eexists _, _; (split; [reflexivity |]).
  - split; [now left |]. apply (assemble_full_record k [] EmptyString). auto.
  - destruct (outcome_at_cases k j b facts Hlast)
      as [(e & He & ->) | [(Hover & _ & ->) | (Hover & _ & ->)]].
    + split; [reflexivity |]. split; [assumption |]. exists j. auto 10.
    + split; [right; exists j; auto 10 | now left].
    + split; [right; exists j; auto 10 |].
      eapply assemble_full_record. right. reflexivity.
Qed.

Lemma failures_only_drop_fields_witness :
  exists calls o,
    resolve_structured_processors 55 wordy_kernel ∅ = Some (calls, o)
    /\ match o with
       | Raised e facts' =>
           facts' = ∅
           /\ 0 < logical_count wordy_kernel
           /\ exists j,
                (j < 55)%nat
                /\ calls = count_calls ++ asked 0 (S j)
                /\ retried wordy_kernel j = true
                /\ grown wordy_kernel j = true
                /\ overflow wordy_kernel (attempt_size j) = Some e
       | Returned facts' =>
           (logical_count wordy_kernel <= 0
            \/ exists j,
                 (j < 55)%nat
                 /\ calls = count_calls ++ asked 0 (S j)
                 /\ retried wordy_kernel j = true
                 /\ grown wordy_kernel j = true
                 /\ insufficient (brand_reply wordy_kernel j) = false
                 /\ overflow wordy_kernel (attempt_size j) = None)
           /\ (untouched ∅ facts'
               \/ exists r s,
                    added r ∅ facts' /\ r ⊆ full_record wordy_kernel s)
       end.
Proof.
  apply (failures_only_drop_fields wordy_kernel ∅ 55). lia.
Defined.




(** C9.  When the logical count query fails and the variable keeps its
    initial 0, the brand string query is not made: the routine returns after
    the two calls for the counts, without a pass through the loop; its
    result is the same whatever the brand string query would reply (also if
    it would succeed); and the record that goes out, if one does, has no
    [models] field. *)
Theorem failed_count_skips_brand_query (k : kernel) (facts : collection) :
  int_rc (hw_logicalcpu_max k) <> 0 ->
  int_stored (hw_logicalcpu_max k) = None ->
  (exists facts',
     resolve_structured_processors 0 k facts
     = Some ([Call "hw.logicalcpu_max" sizeof_int;
              Call "hw.physicalcpu_max" sizeof_int],
             Returned facts')
     /\ lacks "models" facts facts')
  /\ (forall fuel brand,
        resolve_structured_processors fuel (with_brand k brand) facts
        = resolve_structured_processors 0 k facts).
Proof.
  intros Hfailed Hkept.
  assert (Hzero : logical_count k = 0).
  { unfold logical_count, sysctl_int. now rewrite Hkept. }
  split.
  - eexists. split; [apply resolve_skips_brand; lia |]. auto with facter.
  - intros fuel brand.
    rewrite resolve_ignores_brand by lia.
    now rewrite !resolve_skips_brand by lia.
Qed.

Lemma failed_count_skips_brand_query_witness :
  succeeded (machdep_cpu_brand_string countless_kernel 256) = true
  /\ (exists facts',
        resolve_structured_processors 0 countless_kernel ∅
        = Some ([Call "hw.logicalcpu_max" sizeof_int;
                 Call "hw.physicalcpu_max" sizeof_int],
                Returned facts')
        /\ lacks "models" ∅ facts')
  /\ (forall fuel brand,
        resolve_structured_processors fuel (with_brand countless_kernel brand) ∅
        = resolve_structured_processors 0 countless_kernel ∅).
Proof.
  split; [reflexivity |].
  apply (failed_count_skips_brand_query countless_kernel ∅).
  - discriminate.
  - reflexivity.
Defined.

(** C10.  If there is a buffer size at which the brand string query does
    not report the insufficient-buffer condition, the loop comes to an end
    after finitely many passes.  When that size is one the loop uses,
    256 * 2^j, and a vector can have it, the loop ends within [j + 1] calls,
    and not by an exception if the machine has the memory for a buffer of
    that size and one character more. *)
Theorem brand_loop_terminates (k : kernel) (n : N) :
  insufficient (machdep_cpu_brand_string k n) = false ->
  exists fuel calls e,
    brand_loop fuel k initial_buffer = Some (calls, e)
    /\ (forall j,
          n = (256 * 2 ^ N.of_nat j)%N -> (n <= vector_max_size)%N ->
          (length calls <= S j)%nat
          /\ (roomy k (n + 1) -> forall x, e <> Failed x)).
Proof.
  intros Hstop.
  destruct (brand_loop_end k 55 ltac:(lia))
    as (j0 & b & Hj0 & Hretried & Hgrown & _ & Hlast & Hloop).
  exists 55%nat, (asked 0 (S j0)), (exit_at k j0 b).
  split; [exact Hloop |].
  intros j -> Hfit. fold (attempt_size j) in *. rewrite length_asked.
  assert (Hle : (j0 <= j)%nat).
  { destruct (Nat.lt_ge_cases j j0) as [Hlt|Hge]; [| lia].
    pose proof (retried_lt k j j0 Hlt Hretried) as Hi.
    unfold brand_reply in Hi. congruence. }
  split; [lia |]. intros Hroom x.
  pose proof (attempt_size_mono j0 j Hle) as Hmono.
  pose proof (attempt_size_fits j0 Hj0) as Hfit0.
  enough (Hover : overflow k (attempt_size j0) = None).
  { unfold exit_at. rewrite Hover.
    destruct (succeeded (brand_reply k j0)); discriminate. }
  reply_kind (brand_reply k j0) Hs Hi Hr.
  - apply overflow_succeeded; [assumption.. |]. right. apply Hroom. lia.
  - assert (Hlt : (j0 < j)%nat).
    { destruct (decide (j0 = j)) as [->|Hne]; [| lia].
      unfold brand_reply in Hi. congruence. }
    pose proof (attempt_size_mono (S j0) j Hlt) as Hnext.
    apply overflow_insufficient; [assumption |].
    split; [lia | apply Hroom; lia].
  - now apply overflow_refused.
Qed.

Lemma brand_loop_terminates_witness :
  exists fuel calls e,
    brand_loop fuel wordy_kernel initial_buffer = Some (calls, e)
    /\ (forall j,
          1024%N = (256 * 2 ^ N.of_nat j)%N -> (1024 <= vector_max_size)%N ->
          (length calls <= S j)%nat
          /\ (roomy wordy_kernel (1024 + 1) -> forall x, e <> Failed x)).
Proof.
  apply (brand_loop_terminates wordy_kernel 1024). reflexivity.
Defined.

(** * Further properties of the routine *)

(** X1.  Unless the brand string query is refused or a [resize] throws,
    the routine returns and the record it built goes out exactly when it
    has a field; [count] and [physicalcount] are present exactly when their
    own query succeeded and hold the value of the variable, [models] is
    present exactly when the logical count is positive and then holds that
    many copies of one string, and there is no other field. *)
Theorem record_fields (k : kernel) (facts : collection) (fuel : nat) :
  (55 <= fuel)%nat ->
  (forall j, retried k j = true -> grown k j = true ->
     overflow k (attempt_size j) = None) ->
  (forall j, retried k j = true -> refused (brand_reply k j) = false) ->
  exists calls r,
    resolve_structured_processors fuel k facts
    = Some (calls,
            Returned
              (if map_is_empty r then facts
               else collection_add fact_processors (map_value r) facts))
    /\ r !! "count"
       = (if int_rc (hw_logicalcpu_max k) =? 0
          then Some (integer_value (logical_count k)) else None)
    /\ r !! "physicalcount"
       = (if int_rc (hw_physicalcpu_max k) =? 0
          then Some (integer_value (physical_count k)) else None)
    /\ (logical_count k <= 0 -> r !! "models" = None)
    /\ (0 < logical_count k ->
        exists s,
          r !! "models"
          = Some (array_value
                    (replicate (Z.to_nat (logical_count k)) (string_value s))))
    /\ (forall name,
          name <> "count" -> name <> "physicalcount" -> name <> "models" ->
          r !! name = None).
Proof.
  intros Hfuel Hfed Hnever.
  destruct (resolve_end fuel k facts Hfuel)
    as [[Hle ->] | [Hpos (j & b & _ & Hretried & Hgrown & _ & Hlast & ->)]].
  - exists count_calls, (attach_models [] (counts k)).
    rewrite assemble_eq, attach_models_nil.
    split; [reflexivity |]. split; [apply counts_count |].
    split; [apply counts_physicalcount |].
    split; [intros _; now apply counts_other |].
    split; [intros Hpos; lia |].
    intros name H1 H2 _. now apply counts_other.
  - destruct (outcome_at_cases k j b facts Hlast)
      as [(e & He & _) | [(_ & Hr & _) | (_ & _ & ->)]].
    + rewrite (Hfed j Hretried Hgrown) in He. discriminate.
    + rewrite (Hnever j Hretried) in Hr. discriminate.
    + eexists _, (attach_models _ (counts k)).
      rewrite assemble_eq. split; [reflexivity |].
      split; [rewrite attach_models_lookup by discriminate;
              apply counts_count |].
      split; [rewrite attach_models_lookup by discriminate;
              apply counts_physicalcount |].
      split; [intros Hle; lia |].
      split; [intros _; eexists; now apply attach_models_present |].
      intros name H1 H2 H3. rewrite attach_models_lookup by assumption.
      now apply counts_other.
Qed.

Lemma record_fields_witness :
  exists calls r,
    resolve_structured_processors 55 wordy_kernel ∅
    = Some (calls,
            Returned
              (if map_is_empty r then ∅
               else collection_add fact_processors (map_value r) ∅))
    /\ r !! "count"
       = (if int_rc (hw_logicalcpu_max wordy_kernel) =? 0
          then Some (integer_value (logical_count wordy_kernel)) else None)
    /\ r !! "physicalcount"
       = (if int_rc (hw_physicalcpu_max wordy_kernel) =? 0
          then Some (integer_value (physical_count wordy_kernel)) else None)
    /\ (logical_count wordy_kernel <= 0 -> r !! "models" = None)
    /\ (0 < logical_count wordy_kernel ->
        exists s,
          r !! "models"
          = Some (array_value
                    (replicate (Z.to_nat (logical_count wordy_kernel))
                       (string_value s))))
    /\ (forall name,
          name <> "count" -> name <> "physicalcount" -> name <> "models" ->
          r !! name = None).
Proof.
  apply (record_fields wordy_kernel ∅ 55).
  - lia.
  - intros j Hretried _.
    destruct (Nat.lt_ge_cases j 3) as [Hlt|Hge].
    + destruct j as [|[|[|j]]]; [reflexivity.. | lia].
    + apply (retried_le wordy_kernel 3 j Hge) in Hretried.
      vm_compute in Hretried. discriminate Hretried.
  - intros j _. apply sysctl_string_refused.
Defined.

(** X2.  A logical count query that succeeds with a count of zero or less
    has that count recorded as it is: the routine returns after the two
    calls for the counts, and the record goes out with the [count] field
    holding the value and without a [models] field. *)
Theorem nonpositive_count_recorded (k : kernel) (facts : collection)
  (fuel : nat) :
  int_rc (hw_logicalcpu_max k) = 0 ->
  logical_count k <= 0 ->
  exists r,
    resolve_structured_processors fuel k facts
    = Some (count_calls,
            Returned (collection_add fact_processors (map_value r) facts))
    /\ r !! "count" = Some (integer_value (logical_count k))
    /\ r !! "models" = None.
Proof.
  intros Hok Hle. exists (counts k).
  assert (Hcount : counts k !! "count" = Some (integer_value (logical_count k))).
  { rewrite counts_count, Hok. reflexivity. }
  rewrite resolve_skips_brand by assumption.
  split; [| split; [exact Hcount | now apply counts_other]].
  destruct (assemble_cases (counts k) [] facts) as [[Hempty _]|[_ H]].
  - rewrite attach_models_nil in Hempty. rewrite Hempty in Hcount.
    now rewrite lookup_empty in Hcount.
  - now rewrite H, attach_models_nil.
Qed.

Lemma nonpositive_count_recorded_witness :
  exists r,
    resolve_structured_processors 0 negative_kernel ∅
    = Some (count_calls,
            Returned (collection_add fact_processors (map_value r) ∅))
    /\ r !! "count" = Some (integer_value (-1))
    /\ r !! "models" = None.
Proof.
  apply (nonpositive_count_recorded negative_kernel ∅ 0).
  - reflexivity.
  - vm_compute. discriminate.
Defined.

(** X3.  A run of the routine makes the two calls for the counts, in that
    order and whatever they answer, and after them only calls for the brand
    string, with buffers of 256, 512, ... characters: none when the logical
    count is not positive, at least one and at most 55 otherwise, so never
    more than 57 calls in all. *)
Theorem calls_bounded (k : kernel) (facts : collection) (fuel : nat) :
  (55 <= fuel)%nat ->
  exists calls o m,
    resolve_structured_processors fuel k facts = Some (calls, o)
    /\ calls
       = [Call "hw.logicalcpu_max" sizeof_int;
          Call "hw.physicalcpu_max" sizeof_int]
         ++ ((fun i => Call "machdep.cpu.brand_string" (256 * 2 ^ N.of_nat i))
               <$> seq 0 m)
    /\ (m <= 55)%nat
    /\ (m = 0%nat <-> logical_count k <= 0)
    /\ (length calls <= 57)%nat.
Proof.
  intros Hfuel.
  destruct (resolve_calls k facts fuel Hfuel) as (o & m & Hrun & Hm & Hzero).
  exists (count_calls ++ asked 0 m), o, m.
  repeat split; try assumption; try apply Hzero.
  rewrite length_app, length_asked. simpl. lia.
Qed.

Lemma calls_bounded_witness :
  exists calls o m,
    resolve_structured_processors 55 wordy_kernel ∅ = Some (calls, o)
    /\ calls
       = [Call "hw.logicalcpu_max" sizeof_int;
          Call "hw.physicalcpu_max" sizeof_int]
         ++ ((fun i => Call "machdep.cpu.brand_string" (256 * 2 ^ N.of_nat i))
               <$> seq 0 m)
    /\ (m <= 55)%nat
    /\ (m = 0%nat <-> logical_count wordy_kernel <= 0)
    /\ (length calls <= 57)%nat.
Proof.
  apply (calls_bounded wordy_kernel ∅ 55). lia.
Defined.



(** X5.  On a kernel that answers the brand string query as sysctl(3)
    describes it, with a brand string [s] of fewer than 2^62 characters and
    a positive logical count [n], and on a machine with the memory for a
    buffer twice as long as [s] and its closing zero, the routine returns
    after exactly as many brand string calls as it takes for the buffer to
    hold [s] and its closing zero, and the record goes out with [n] copies
    of [s] as [models]: what the failed attempts copied does not show. *)
Theorem documented_kernel_models (k : kernel) (facts : collection)
  (s : string) (n : Z) (fuel : nat) :
  machdep_cpu_brand_string k = sysctl_string s ->
  NUL ∉ list_ascii_of_string s ->
  (N.of_nat (String.length s) < 2 ^ 62)%N ->
  roomy k (2 * (N.of_nat (String.length s) + 1)) ->
  logical_count k = n ->
  0 < n ->
  (55 <= fuel)%nat ->
  exists j r,
    (N.of_nat (String.length s) + 1 <= 256 * 2 ^ N.of_nat j)%N
    /\ (forall i, (i < j)%nat ->
          (256 * 2 ^ N.of_nat i < N.of_nat (String.length s) + 1)%N)
    /\ resolve_structured_processors fuel k facts
       = Some (count_calls ++ asked 0 (S j),
               Returned (collection_add fact_processors (map_value r) facts))
    /\ r !! "models"
       = Some (array_value (replicate (Z.to_nat n) (string_value s))).
Proof.
  intros Hbrand Hnul Hlen Hroom Hn Hpos Hfuel. subst n.
  assert (Hreply : forall i, brand_reply k i = sysctl_string s (attempt_size i))
    by (intros i; unfold brand_reply; now rewrite Hbrand).
  change (2 ^ 62)%N with 4611686018427387904%N in Hlen.
  destruct (resolve_end fuel k facts Hfuel)
    as [[Hle _] | [_ (j & b & Hj & Hretried & Hgrown & Hb & Hlast & ->)]];
    [lia |].
  pose proof (attempt_size_fits j Hj) as Hfit.
  assert (Hok : succeeded (brand_reply k j) = true).
  { pose proof (sysctl_string_refused s (attempt_size j)) as Hr.
    rewrite <- Hreply in Hr.
    reply_kind (brand_reply k j) Hs Hi Hr'. exfalso.
    assert (Hshort : (attempt_size j < N.of_nat (String.length s) + 1)%N).
    { rewrite Hreply in Hi. now apply sysctl_string_insufficient in Hi. }
    assert (Hover : overflow k (attempt_size j) = None).
    { apply overflow_insufficient; [assumption |].
      rewrite attempt_size_S, vector_max_size_eq.
      split; [lia | apply Hroom; lia]. }
    specialize (Hlast Hover). congruence. }
  assert (Hfits : (N.of_nat (String.length s) + 1 <= attempt_size j)%N).
  { rewrite Hreply in Hok. now apply sysctl_string_succeeded in Hok. }
  assert (Hover : overflow k (attempt_size j) = None).
  { apply overflow_succeeded; [assumption.. |].
    rewrite Hreply, sysctl_string_data, length_app, length_list_ascii.
    simpl.
    destruct (N.lt_ge_cases (N.of_nat (String.length s + 1)) (attempt_size j))
      as [Hlt|Hge]; [now left |].
    right. apply Hroom. lia. }
  destruct (outcome_at_cases k j b facts Hlast)
    as [(e & He & _) | [(_ & Hr & _) | (_ & _ & ->)]];
    [congruence | reply_kind (brand_reply k j) Hs Hi Hr' |].
  destruct Hb as (Hsize & Hfull & _).
  rewrite Hreply, sysctl_string_data.
  rewrite c_str_terminated_buffer;
    [| assumption | unfold vsize in Hsize; lia | assumption].
  rewrite assemble_models by now apply models_nonempty.
  exists j. eexists. split; [exact Hfits |]. split.
  - intros i Hi. pose proof (retried_lt k i j Hi Hretried) as Hins.
    rewrite Hreply in Hins. now apply sysctl_string_insufficient in Hins.
  - split; [reflexivity |]. apply lookup_insert_eq.
Qed.

Lemma documented_kernel_models_witness :
  exists j r,
    (N.of_nat (String.length "Example CPU") + 1 <= 256 * 2 ^ N.of_nat j)%N
    /\ (forall i, (i < j)%nat ->
          (256 * 2 ^ N.of_nat i < N.of_nat (String.length "Example CPU") + 1)%N)
    /\ resolve_structured_processors 55 example_kernel ∅
       = Some (count_calls ++ asked 0 (S j),
               Returned (collection_add fact_processors (map_value r) ∅))
    /\ r !! "models"
       = Some (array_value (replicate 4 (string_value "Example CPU"))).
Proof.
  apply (documented_kernel_models example_kernel ∅ "Example CPU" 4 55).
  - reflexivity.
  - simpl. intros H.
    repeat (apply elem_of_cons in H as [H|H]; [discriminate H |]).
    now apply elem_of_nil in H.
  - vm_compute. reflexivity.
  - intros m Hm. apply N.leb_le.
    change (m <= 24)%N in Hm. change (2 ^ 33)%N with 8589934592%N. lia.
  - reflexivity.
  - reflexivity.
  - lia.
Defined.

(** X6.  The buffer handed to the brand string query never has fewer than
    256 or more than 2^62 characters, so neither [buffer.size() * 2] nor
    [size + 1] ever wraps around in [size_t]. *)
Theorem buffer_size_bounded (k : kernel) (facts : collection) (fuel : nat) :
  (55 <= fuel)%nat ->
  exists calls o,
    resolve_structured_processors fuel k facts = Some (calls, o)
    /\ forall c,
         c ∈ calls ->
         call_name c = "machdep.cpu.brand_string"%string ->
         (256 <= call_oldlen c <= 2 ^ 62)%N
         /\ size_t (call_oldlen c * 2) = (call_oldlen c * 2)%N
         /\ size_t (call_oldlen c + 1) = (call_oldlen c + 1)%N.
Proof.
  intros Hfuel.
  destruct (resolve_calls k facts fuel Hfuel) as (o & m & Hrun & Hm & _).
  exists (count_calls ++ asked 0 m), o. split; [exact Hrun |].
  intros c [Hc | Hc]%elem_of_app Hname.
  - unfold count_calls in Hc.
    repeat (apply elem_of_cons in Hc as [-> | Hc]; [discriminate Hname |]).
    now apply elem_of_nil in Hc.
  - unfold asked in Hc.
    apply list_elem_of_fmap in Hc as (i & -> & [_ Hi]%elem_of_seq); simpl.
    pose proof (attempt_size_mono 0 i ltac:(lia)) as Hlow.
    pose proof (attempt_size_mono i 54 ltac:(lia)) as Hhigh.
    rewrite attempt_size_54 in Hhigh.
    change (attempt_size 0) with 256%N in Hlow.
    change (2 ^ 62)%N with 4611686018427387904%N.
    repeat split; try lia; apply size_t_small; lia.
Qed.

Lemma buffer_size_bounded_witness :
  exists calls o,
    resolve_structured_processors 55 starved_kernel ∅ = Some (calls, o)
    /\ forall c,
         c ∈ calls ->
         call_name c = "machdep.cpu.brand_string"%string ->
         (256 <= call_oldlen c <= 2 ^ 62)%N
         /\ size_t (call_oldlen c * 2) = (call_oldlen c * 2)%N
         /\ size_t (call_oldlen c + 1) = (call_oldlen c + 1)%N.
Proof.
  apply (buffer_size_bounded starved_kernel ∅ 55). lia.
Defined.
